(** * obs-rave-overlay: event bus, beat engine, colour extractor, theme engine

    A shallow embedding of the four core classes of the overlay
    (src/shared/lib/event-bus.js and the theme-engine.js bundle, which also
    carries beat-engine.js and color-extractor.js) together with the
    properties of the specification that were checked against them.

    Conventions.
    - JavaScript objects with identity (handler functions) are natural
      numbers; two handlers are the same function object iff the numbers
      are equal.
    - [Date.now()] and the due time of a [setTimeout] are explicit integer
      arguments (milliseconds).
    - Numbers that the code only compares, adds or divides exactly are
      integers ([Z]) or rationals ([Q]); every place where the source works
      in double precision is commented with why the exact value agrees.
    - A string is the UTF-8 encoding of its text; what the host does to
      text beyond ASCII, and to images, is a parameter of the methods that
      depend on it. *)

From Stdlib Require Import ZArith QArith Qround Ascii String List.
From stdpp Require Import gmap strings list pretty.

Local Open Scope string_scope.
Local Open Scope list_scope.
Local Open Scope Z_scope.

(** ** Event bus (src/shared/lib/event-bus.js) *)

Module Bus.

(** A handler is a function object; only its identity matters to the bus. *)
Definition Handler := nat.

Section WithPayload.

Context {Data : Type}.

(** The envelope [{ type, data, timestamp }].  A missing [type] field is
    [None]; [timestamp] is the publisher's [Date.now()]. *)
Record Message := {
  mtype : option string;
  mdata : Data;
  mtimestamp : Z
}.

(** One invocation [callback(message.data, message.type)]. *)
Record Call := {
  callee : Handler;
  arg_data : Data;
  arg_type : string
}.

(** The fields of the class that [handleMessage], [on] and [off] touch.
    - [listeners] is the [Map] from type to a [Set] of callbacks; a JS [Set]
      iterates in insertion order and holds each object once, so it is a
      list that [set_add] keeps duplicate-free.
    - [messageHistory] is the [Map] from key to [true]: only its key set
      matters.
    - [timers] are the pending [setTimeout] callbacks, each with its due
      time and the key its closure deletes. *)
Record EventBus := {
  listeners : gmap string (list Handler);
  messageHistory : gset string;
  timers : list (Z * string);
  deduplicationWindow : Z
}.

(** [constructor]: empty registry, empty history, window of 100 ms. *)
Definition new : EventBus :=
  {| listeners := ∅; messageHistory := ∅; timers := [];
     deduplicationWindow := 100 |}.

(** [`${message.type}-${message.timestamp}`].  An integer below 10^21
    prints in plain decimal, which is what [pretty] produces. *)
Definition messageKey (type : string) (timestamp : Z) : string :=
  type +:+ "-" +:+ pretty timestamp.

(** [this.listeners.get(type)], with a missing entry read as no callbacks. *)
Definition listenersOf (bus : EventBus) (type : string) : list Handler :=
  default [] (listeners bus !! type).

(** The two [forEach] loops of [handleMessage]: the callbacks registered
    for the type, then the callbacks registered for ['*'].  The [try/catch]
    around each call means a throwing callback does not stop the loop. *)
Definition dispatch (bus : EventBus) (type : string) (data : Data) : list Call :=
  map (λ cb, {| callee := cb; arg_data := data; arg_type := type |})
      (listenersOf bus type)
  ++ map (λ cb, {| callee := cb; arg_data := data; arg_type := type |})
      (listenersOf bus "*").

(** [handleMessage(message)], run at time [now].  Returns the new state and
    the callback invocations made during the call. *)
Definition handleMessage (now : Z) (message : option Message) (bus : EventBus)
  : EventBus * list Call :=
  match message with
  | None => (bus, [])
  | Some m =>
    match mtype m with
    | None => (bus, [])
    | Some type =>
      if decide (type = "") then (bus, [])
      else
        let key := messageKey type (mtimestamp m) in
        if decide (key ∈ messageHistory bus) then (bus, [])
        else
          ({| listeners := listeners bus;
              messageHistory := {[ key ]} ∪ messageHistory bus;
              timers := timers bus ++ [(now + deduplicationWindow bus, key)];
              deduplicationWindow := deduplicationWindow bus |},
           dispatch bus type (mdata m))
    end
  end.

(** Removal of the first occurrence of a pending timer. *)
Fixpoint remove_first (tm : Z * string) (l : list (Z * string)) : list (Z * string) :=
  match l with
  | [] => []
  | x :: l' => if decide (x = tm) then l' else x :: remove_first tm l'
  end.

(** The [setTimeout] callback [() => this.messageHistory.delete(messageKey)]
    running at time [now].  A timer never runs before it is due, and only a
    pending timer can run. *)
Definition fireTimer (now : Z) (tm : Z * string) (bus : EventBus) : EventBus :=
  if decide (tm ∈ timers bus ∧ tm.1 ≤ now) then
    {| listeners := listeners bus;
       messageHistory := messageHistory bus ∖ {[ tm.2 ]};
       timers := remove_first tm (timers bus);
       deduplicationWindow := deduplicationWindow bus |}
  else bus.

(** A run of timer callbacks, each with the time at which it runs. *)
Definition fireTimers (evs : list (Z * (Z * string))) (bus : EventBus) : EventBus :=
  foldl (λ b ev, fireTimer ev.1 ev.2 b) bus evs.

(** [Set.prototype.add]. *)
Definition set_add (cb : Handler) (s : list Handler) : list Handler :=
  if decide (cb ∈ s) then s else s ++ [cb].

(** [Set.prototype.delete]. *)
Definition set_delete (cb : Handler) (s : list Handler) : list Handler :=
  filter (λ x, x ≠ cb) s.

(** The body of the [forEach] of [on] for one type. *)
Definition on1 (callback : Handler) (bus : EventBus) (type : string) : EventBus :=
  {| listeners := <[ type := set_add callback (listenersOf bus type) ]> (listeners bus);
     messageHistory := messageHistory bus;
     timers := timers bus;
     deduplicationWindow := deduplicationWindow bus |}.

(** [on(eventTypes, callback)]; a single string is the one-element list. *)
Definition on (eventTypes : list string) (callback : Handler) (bus : EventBus)
  : EventBus :=
  foldl (on1 callback) bus eventTypes.

Definition off1 (callback : Handler) (bus : EventBus) (type : string) : EventBus :=
  match listeners bus !! type with
  | Some s =>
    {| listeners := <[ type := set_delete callback s ]> (listeners bus);
       messageHistory := messageHistory bus;
       timers := timers bus;
       deduplicationWindow := deduplicationWindow bus |}
  | None => bus
  end.

(** [off(eventTypes, callback)], also what the closure returned by [on] runs. *)
Definition off (eventTypes : list string) (callback : Handler) (bus : EventBus)
  : EventBus :=
  foldl (off1 callback) bus eventTypes.

(** The states a bus goes through between construction and [disconnect]. *)
Inductive Reachable : EventBus → Prop :=
| R_new : Reachable new
| R_on types cb bus : Reachable bus → Reachable (on types cb bus)
| R_off types cb bus : Reachable bus → Reachable (off types cb bus)
| R_handle now m bus : Reachable bus → Reachable (handleMessage now m bus).1
| R_fire now tm bus : Reachable bus → Reachable (fireTimer now tm bus).

(** How many times [h] was called in a list of invocations. *)
Definition invocations (h : Handler) (calls : list Call) : nat :=
  length (filter (λ c, callee c = h) calls).

(** The registrations of [h] that a message of type [type] reaches: the one
    under the type itself and the one under the wildcard, where [h] holds
    them. *)
Definition registrations (bus : EventBus) (type : string) (h : Handler) : nat :=
  ((if decide (h ∈ listenersOf bus type) then 1 else 0)
   + (if decide (h ∈ listenersOf bus "*") then 1 else 0))%nat.

(** [h] holds exactly one registration that a message of type [type]
    reaches: under the type itself or under the wildcard. *)
Definition subscribedOnce (bus : EventBus) (type : string) (h : Handler) : Prop :=
  ((h ∈ listenersOf bus type) ∧ (h ∉ listenersOf bus "*"))
  ∨ ((h ∉ listenersOf bus type) ∧ (h ∈ listenersOf bus "*")).

(** Every listener set holds a callback at most once. *)
Definition listeners_ok (bus : EventBus) : Prop :=
  ∀ type l, listeners bus !! type = Some l → NoDup l.

(** A remembered key has at most one pending timer, and a pending timer
    belongs to a remembered key. *)
Definition timers_ok (bus : EventBus) : Prop :=
  NoDup (timers bus).*2 ∧ ∀ tm, tm ∈ timers bus → tm.2 ∈ messageHistory bus.

End WithPayload.

Arguments Message : clear implicits.
Arguments Call : clear implicits.

End Bus.

(** ** Beat engine (beat-engine.js, bundled in src/shared/lib/theme-engine.js) *)

Module Beat.

(** A JavaScript number.  [Finite q] with [q] zero is the positive zero;
    the negative zero, which the division below tells apart, is [NegZero]. *)
Inductive JsNumber :=
| Finite (q : Q)
| NegZero
| NaN
| PosInfinity
| NegInfinity.

(** What [setBPM] can be handed and what the fields [bpm] and [beatInterval]
    can hold: [undefined], [null], or a number. *)
Inductive JsValue :=
| Undefined
| Null
| Number (n : JsNumber).

(** How a call ended: by returning, or by an uncaught exception. *)
Inductive Completion := Normal | Thrown.

(** [!bpm]: [undefined], [null], [NaN] and the two zeros are falsy. *)
Definition falsy (bpm : JsValue) : bool :=
  match bpm with
  | Undefined | Null => true
  | Number (Finite q) => Qeq_bool q 0
  | Number NegZero | Number NaN => true
  | Number PosInfinity | Number NegInfinity => false
  end.

(** [bpm <= 0].  The operand is converted to a number first: [undefined]
    becomes [NaN], with which every comparison is false, and [null] becomes
    0. *)
Definition nonPositive (bpm : JsValue) : bool :=
  match bpm with
  | Undefined => false
  | Null => true
  | Number (Finite q) => Qle_bool q 0
  | Number NegZero | Number NegInfinity => true
  | Number NaN | Number PosInfinity => false
  end.

(** [bpm > 300]. *)
Definition above300 (bpm : JsValue) : bool :=
  match bpm with
  | Number (Finite q) => negb (Qle_bool q 300)
  | Number PosInfinity => true
  | _ => false
  end.

(** [60000 / bpm]: the exact quotient for a finite divisor other than zero,
    an infinity for a zero and for [null], which is converted to zero, a
    zero for an infinity, and [NaN] for [NaN] and for [undefined], which is
    converted to [NaN]. *)
Definition perBeat (bpm : JsValue) : JsNumber :=
  match bpm with
  | Undefined | Number NaN => NaN
  | Null => PosInfinity
  | Number (Finite q) => if Qeq_bool q 0 then PosInfinity else Finite (60000 / q)%Q
  | Number NegZero => NegInfinity
  | Number PosInfinity => Finite 0
  | Number NegInfinity => NegZero
  end.

(** The arguments [setBPM] is documented to replace: falsy, non-positive,
    or greater than 300. *)
Definition outOfRange (bpm : JsValue) : Prop :=
  match bpm with
  | Undefined | Null | Number NaN | Number NegZero => True
  | Number (Finite q) => (q == 0 ∨ q <= 0 ∨ 300 < q)%Q
  | Number PosInfinity | Number NegInfinity => True
  end.

Section WithFeatures.

Context {Features : Type}.

(** The payload of a ['beat:tick'] event; the fields are read from the
    engine when the tick is built. *)
Record BeatTick := {
  tick_beatCount : Z;
  tick_bpm : JsValue;
  tick_beatInterval : JsValue;
  tick_audioFeatures : option Features;
  tick_timestamp : Z
}.

(** The fields of the class.  [eventBus] only records whether a bus is
    attached ([destroy] sets it to [null]); [EventBus.emit] itself never
    throws. *)
Record BeatEngine := {
  eventBus : bool;
  bpm : JsValue;
  beatInterval : JsValue;
  beatTimerId : option positive;
  beatCount : Z;
  audioFeatures : option Features;
  isRunning : bool
}.

(** The engine with what it acts on: the host's table of running
    [setInterval] timers (identifier and period), the next identifier the
    host hands out, and the ticks passed to [eventBus.emit] so far. *)
Record System := {
  engine : BeatEngine;
  intervals : list (positive * JsValue);
  nextTimerId : positive;
  emitted : list BeatTick
}.

(** [constructor(eventBus)]. *)
Definition new (bus : bool) : System :=
  {| engine := {| eventBus := bus; bpm := Null; beatInterval := Null;
                  beatTimerId := None; beatCount := 0;
                  audioFeatures := None; isRunning := false |};
     intervals := []; nextTimerId := 1%positive; emitted := [] |}.

(** [emitBeat()]: the counter is incremented first, then the tick is built
    from the incremented counter.  With no bus attached
    [this.eventBus.emit] is a [TypeError], raised after the increment. *)
Definition emitBeat (now : Z) (s : System) : System * Completion :=
  let e := engine s in
  let e1 := {| eventBus := eventBus e; bpm := bpm e;
               beatInterval := beatInterval e; beatTimerId := beatTimerId e;
               beatCount := beatCount e + 1;
               audioFeatures := audioFeatures e; isRunning := isRunning e |} in
  if eventBus e then
    ({| engine := e1; intervals := intervals s; nextTimerId := nextTimerId s;
        emitted := emitted s ++
          [{| tick_beatCount := beatCount e1; tick_bpm := bpm e1;
              tick_beatInterval := beatInterval e1;
              tick_audioFeatures := audioFeatures e1;
              tick_timestamp := now |}] |}, Normal)
  else
    ({| engine := e1; intervals := intervals s; nextTimerId := nextTimerId s;
        emitted := emitted s |}, Thrown).

(** [stopBeat()]. *)
Definition stopBeat (s : System) : System :=
  let e := engine s in
  {| engine := {| eventBus := eventBus e; bpm := bpm e;
                  beatInterval := beatInterval e; beatTimerId := None;
                  beatCount := 0; audioFeatures := audioFeatures e;
                  isRunning := false |};
     intervals :=
       match beatTimerId e with
       | Some id => filter (λ t, t.1 ≠ id) (intervals s)
       | None => intervals s
       end;
     nextTimerId := nextTimerId s;
     emitted := emitted s |}.

(** [!this.bpm] in [startBeat]. *)
Definition noBpm (e : BeatEngine) : bool := falsy (bpm e).

(** [startBeat()]. *)
Definition startBeat (now : Z) (s : System) : System * Completion :=
  let e := engine s in
  if noBpm e then (s, Normal)
  else if isRunning e then (s, Normal)
  else
    let e1 := {| eventBus := eventBus e; bpm := bpm e;
                 beatInterval := beatInterval e; beatTimerId := beatTimerId e;
                 beatCount := 0; audioFeatures := audioFeatures e;
                 isRunning := true |} in
    let s1 := {| engine := e1; intervals := intervals s;
                 nextTimerId := nextTimerId s; emitted := emitted s |} in
    match emitBeat now s1 with
    | (s2, Thrown) => (s2, Thrown)
    | (s2, Normal) =>
      let e2 := engine s2 in
      let id := nextTimerId s2 in
      ({| engine := {| eventBus := eventBus e2; bpm := bpm e2;
                       beatInterval := beatInterval e2;
                       beatTimerId := Some id;
                       beatCount := beatCount e2;
                       audioFeatures := audioFeatures e2;
                       isRunning := isRunning e2 |};
          intervals := intervals s2 ++ [(id, beatInterval e2)];
          nextTimerId := Pos.succ id;
          emitted := emitted s2 |}, Normal)
    end.

(** The validation at the head of [setBPM]: the value the parameter [bpm]
    holds after it, which is 120 where one of the three tests fires and the
    argument itself where none does. *)
Definition validated (bpm : JsValue) : JsValue :=
  if falsy bpm || nonPositive bpm || above300 bpm then Number (Finite 120)
  else bpm.

(** [setBPM(bpm, audioFeatures)].  [60000 / bpm] is the exact quotient; for
    the default 120 it is 500, which a double holds exactly. *)
Definition setBPM (now : Z) (arg : JsValue) (features : Features)
    (s : System) : System * Completion :=
  let e := engine s in
  let v := validated arg in
  let s1 := {| engine := {| eventBus := eventBus e; bpm := v;
                            beatInterval := Number (perBeat v);
                            beatTimerId := beatTimerId e;
                            beatCount := beatCount e;
                            audioFeatures := Some features;
                            isRunning := isRunning e |};
               intervals := intervals s; nextTimerId := nextTimerId s;
               emitted := emitted s |} in
  startBeat now (stopBeat s1).

(** One firing of the [setInterval] callback of timer [id]. *)
Definition intervalTick (now : Z) (id : positive) (s : System) : System * Completion :=
  if decide (id ∈ (intervals s).*1) then emitBeat now s else (s, Normal).

(** [destroy()]. *)
Definition destroy (s : System) : System :=
  let s1 := stopBeat s in
  let e := engine s1 in
  {| engine := {| eventBus := false; bpm := bpm e;
                  beatInterval := beatInterval e;
                  beatTimerId := beatTimerId e; beatCount := beatCount e;
                  audioFeatures := audioFeatures e; isRunning := isRunning e |};
     intervals := intervals s1; nextTimerId := nextTimerId s1;
     emitted := emitted s1 |}.

End WithFeatures.

Arguments BeatTick : clear implicits.
Arguments BeatEngine : clear implicits.
Arguments System : clear implicits.

End Beat.

(** ** Colour extractor (color-extractor.js, bundled in theme-engine.js) *)

Module Extractor.

(** [{ r, g, b }] with the 8-bit channel values of canvas image data. *)
Record Color := { r : Z; g : Z; b : Z }.

#[global] Instance Color_eq_dec : EqDecision Color.
Proof. solve_decision. Defined.

(** The result of [extractColors]. *)
Record Palette := { dominant : Color; palette : list Color }.

(** How the promise of an [async] call settles. *)
Inductive Settled (A : Type) :=
| Resolved (a : A)
| Rejected.
Arguments Resolved {A} a.
Arguments Rejected {A}.

(** Four consecutive bytes of [imageData.data]. *)
Record Pixel := { pr : Z; pg : Z; pb : Z; pa : Z }.

(** What the browser does with [img.src = imageUrl]: [onerror], or [onload]
    followed by the canvas calls, which either raise (no 2d context, a
    zero-sized or tainted canvas) or hand over the pixels. *)
Inductive ImageLoad :=
| LoadError
| Loaded (raster : option (list Pixel)).

(** The fallback of both [resolve] calls: purple, pink, cyan. *)
Definition fallback : Palette :=
  {| dominant := {| r := 139; g := 92; b := 246 |};
     palette := [ {| r := 139; g := 92; b := 246 |};
                  {| r := 236; g := 72; b := 153 |};
                  {| r := 6; g := 182; b := 212 |} ] |}.

(** The test of the pixel loop.  On channel values 0..255:
    [(r+g+b)/3 > 30] iff [r+g+b > 90], [(r+g+b)/3 < 225] iff [r+g+b < 675],
    and [(max-min)/max > 0.2] iff [5*(max-min) > max]: the quotients that
    are not exactly the bound differ from it by far more than a rounding
    error, and the exact ones print the same double as the literal. *)
Definition vibrant (p : Pixel) : bool :=
  if pa p <? 128 then false
  else
    let sum := pr p + pg p + pb p in
    let max := Z.max (Z.max (pr p) (pg p)) (pb p) in
    let min := Z.min (Z.min (pr p) (pg p)) (pb p) in
    let saturated := if max =? 0 then false else max <? 5 * (max - min) in
    (90 <? sum) && (sum <? 675) && saturated.

(** The array [colors] after the pixel loop. *)
Definition collect (pixels : list Pixel) : list Color :=
  map (λ p, {| r := pr p; g := pg p; b := pb p |}) (filter (λ p, vibrant p = true) pixels).

(** The square of [colorDistance]; the square root is strictly increasing
    on these integers, so comparing squares compares distances. *)
Definition sqDistance (c1 c2 : Color) : Z :=
  (r c1 - r c2) ^ 2 + (g c1 - g c2) ^ 2 + (b c1 - b c2) ^ 2.

(** The inner [centroids.forEach]: [minDist] starts at [Infinity] ([None])
    and [closestCentroid] at 0; a strictly smaller distance replaces both. *)
Definition closest (color : Color) (centroids : list Color) : nat :=
  (foldl (λ (acc : option Z * nat * nat) centroid,
            let '(minDist, closestCentroid, index) := acc in
            let dist := sqDistance color centroid in
            match minDist with
            | Some m => if dist <? m then (Some dist, index, S index)
                        else (minDist, closestCentroid, S index)
            | None => (Some dist, index, S index)
            end)
         (None, 0%nat, 0%nat) centroids).1.2.

(** [colors.forEach(color => clusters[closestCentroid].push(color))].
    [clusters[i]] is [undefined] outside the array, and calling [push] on it
    raises a [TypeError] ([None]). *)
Fixpoint assign (colors centroids : list Color) (clusters : list (list Color))
  : option (list (list Color)) :=
  match colors with
  | [] => Some clusters
  | color :: rest =>
    let i := closest color centroids in
    match clusters !! i with
    | Some cluster => assign rest centroids (<[ i := cluster ++ [color] ]> clusters)
    | None => None
    end
  end.

(** [Math.round(sum / n)] for integers with [n > 0]: round half up. *)
Definition roundDiv (sum n : Z) : Z := (2 * sum + n) / (2 * n).

(** The new centroid of one cluster; an empty cluster takes [centroids[0]]. *)
Definition recentre (centroids : list Color) (cluster : list Color) : option Color :=
  match cluster with
  | [] => head centroids
  | _ =>
    let n := Z.of_nat (length cluster) in
    Some {| r := roundDiv (foldl (λ sum c, sum + r c) 0 cluster) n;
            g := roundDiv (foldl (λ sum c, sum + g c) 0 cluster) n;
            b := roundDiv (foldl (λ sum c, sum + b c) 0 cluster) n |}
  end.

(** [newCentroids.every((centroid, i) => colorDistance(centroid, centroids[i]) < 5)]. *)
Fixpoint converged (newCentroids centroids : list Color) : bool :=
  match newCentroids, centroids with
  | c :: cs, o :: os => (sqDistance c o <? 25) && converged cs os
  | [], _ => true
  | _ :: _, [] => false
  end.

(** The [for (iteration ...)] loop, [remaining] iterations to go. *)
Fixpoint iterate (remaining : nat) (colors centroids : list Color) (k : Z)
  : option (list Color) :=
  match remaining with
  | O => Some centroids
  | S remaining' =>
    match assign colors centroids (replicate (Z.to_nat k) []) with
    | None => None
    | Some clusters =>
      match mapM (recentre centroids) clusters with
      | None => None
      | Some newCentroids =>
        if converged newCentroids centroids then Some newCentroids
        else iterate remaining' colors newCentroids k
      end
    end
  end.

(** The seeds [{ ...colors[i * step] }] for [i < k].  The loop does not run
    for [k <= 0]; for [1 <= k < colors.length] every index is in range. *)
Definition seeds (colors : list Color) (k : Z) : option (list Color) :=
  let step := Z.of_nat (length colors) / k in
  mapM (λ i, colors !! Z.to_nat (Z.of_nat i * step)) (seq 0 (Z.to_nat k)).

(** [kMeansClustering(colors, k, maxIterations)]; [None] is a raised exception. *)
Definition kMeansClustering (colors : list Color) (k : Z) (maxIterations : nat)
  : option (list Color) :=
  if Z.of_nat (length colors) <=? k then Some colors
  else
    match seeds colors k with
    | None => None
    | Some centroids => iterate maxIterations colors centroids k
    end.

(** [calculateVibrancy], as an exact rational. *)
Definition calculateVibrancy (color : Color) : Q :=
  let max := Z.max (Z.max (r color) (g color)) (b color) in
  let min := Z.min (Z.min (r color) (g color)) (b color) in
  let saturation := if max =? 0 then 0%Q else (inject_Z (max - min) / inject_Z max)%Q in
  let brightness := (inject_Z (r color + g color + b color) / inject_Z (3 * 255))%Q in
  (saturation * brightness)%Q.

(** [palette.sort((a, b) => vibrancy(b) - vibrancy(a))]: a stable sort by
    descending vibrancy, here as insertion from the right. *)
Fixpoint insertByVibrancy (x : Color) (sorted : list Color) : list Color :=
  match sorted with
  | [] => [x]
  | y :: rest =>
    if Qle_bool (calculateVibrancy y) (calculateVibrancy x) then x :: sorted
    else y :: insertByVibrancy x rest
  end.

Definition sortByVibrancy (colors : list Color) : list Color :=
  foldr insertByVibrancy [] colors.

(** [extractColors(imageUrl, colorCount)] given what loading the image does.
    Every exception inside [onload] reaches [reject(error)]. *)
Definition extractColors (image : ImageLoad) (colorCount : Z) : Settled Palette :=
  match image with
  | LoadError => Resolved fallback
  | Loaded None => Rejected
  | Loaded (Some pixels) =>
    let colors := collect pixels in
    match colors with
    | [] => Resolved fallback
    | _ =>
      match kMeansClustering colors (Z.min colorCount (Z.of_nat (length colors))) 10 with
      | None => Rejected
      | Some clustered =>
        match sortByVibrancy clustered with
        | first :: rest => Resolved {| dominant := first; palette := first :: rest |}
        | [] => Rejected
        end
      end
    end
  end.

(** [rgbToString]. *)
Definition rgbToString (color : Color) : string :=
  "rgb(" +:+ pretty (r color) +:+ ", " +:+ pretty (g color) +:+ ", "
  +:+ pretty (b color) +:+ ")".

End Extractor.

(** ** Theme engine (src/shared/lib/theme-engine.js) *)

Module Theme.

Import Extractor.

(** *** Strings: the three methods [detectGenreTheme] calls

    A JavaScript string is held as the UTF-8 encoding of its text, one
    [ascii] per byte.  Every string without an unpaired surrogate has
    exactly one such encoding, and equality, concatenation and [includes]
    give the same answers on the encodings as on the strings. *)

(** The text is plain ASCII: every code unit is below 128. *)
Fixpoint isAscii (s : string) : bool :=
  match s with
  | EmptyString => true
  | String c s' => (nat_of_ascii c <? 128)%nat && isAscii s'
  end.

Definition lowerChar (c : ascii) : ascii :=
  let n := nat_of_ascii c in
  if ((65 <=? n) && (n <=? 90))%nat then ascii_of_nat (n + 32) else c.

(** [toLowerCase] on plain ASCII text: the letters A to Z and nothing else
    have a lower-case form. *)
Fixpoint asciiLowerCase (s : string) : string :=
  match s with
  | EmptyString => EmptyString
  | String c s' => String (lowerChar c) (asciiLowerCase s')
  end.

(** The white space that [trim] strips, by the length of its encoding: the
    code points WhiteSpace and LineTerminator of ECMAScript.
    One byte: U+0009 to U+000D and U+0020. *)
Definition space1 (c1 : ascii) : bool :=
  let n := nat_of_ascii c1 in
  ((9 <=? n) && (n <=? 13) || (n =? 32))%nat.

(** Two bytes: U+00A0, encoded C2 A0. *)
Definition space2 (c1 c2 : ascii) : bool :=
  ((nat_of_ascii c1 =? 194) && (nat_of_ascii c2 =? 160))%nat.

(** Three bytes: U+1680 (E1 9A 80); U+2000 to U+200A, U+2028, U+2029 and
    U+202F (E2 80 80 to 8A, A8, A9, AF); U+205F (E2 81 9F); U+3000
    (E3 80 80); U+FEFF (EF BB BF). *)
Definition space3 (c1 c2 c3 : ascii) : bool :=
  let x := nat_of_ascii c1 in
  let y := nat_of_ascii c2 in
  let z := nat_of_ascii c3 in
  ((x =? 225) && (y =? 154) && (z =? 128)
   || (x =? 226) && (y =? 128)
      && ((128 <=? z) && (z <=? 138) || (z =? 168) || (z =? 169) || (z =? 175))
   || (x =? 226) && (y =? 129) && (z =? 159)
   || (x =? 227) && (y =? 128) && (z =? 128)
   || (x =? 239) && (y =? 187) && (z =? 191))%nat.

(** The bytes left once the white space at the head of the list is
    dropped.  With [backwards] the list is read from the end of the text, so
    the bytes of a character arrive last byte first. *)
Fixpoint dropSpace (backwards : bool) (l : list ascii) : list ascii :=
  match l with
  | [] => []
  | c1 :: l1 =>
    if space1 c1 then dropSpace backwards l1
    else
      match l1 with
      | [] => l
      | c2 :: l2 =>
        if (if backwards then space2 c2 c1 else space2 c1 c2)
        then dropSpace backwards l2
        else
          match l2 with
          | [] => l
          | c3 :: l3 =>
            if (if backwards then space3 c3 c2 c1 else space3 c1 c2 c3)
            then dropSpace backwards l3
            else l
          end
      end
  end.

Definition trimStart (s : string) : string :=
  string_of_list_ascii (dropSpace false (list_ascii_of_string s)).

Definition trimEnd (s : string) : string :=
  string_of_list_ascii
    (List.rev (dropSpace true (List.rev (list_ascii_of_string s)))).

(** [String.prototype.trim]. *)
Definition trim (s : string) : string := trimEnd (trimStart s).

(** [haystack.includes(needle)]. *)
Fixpoint includes (haystack needle : string) : bool :=
  String.prefix needle haystack ||
  match haystack with
  | EmptyString => false
  | String _ rest => includes rest needle
  end.

(** *** The two tables *)

Record BaseColors := { primary : Color; secondary : Color; accent : Color }.

Record Effects := {
  glowIntensity : string;
  animationSpeed : string;
  blurStrength : string
}.

Record GenreTheme := {
  name : string;
  baseColors : BaseColors;
  effects : Effects
}.

Definition rgb (x y z : Z) : Color := {| r := x; g := y; b := z |}.

Definition mkGenre (n : string) (p s a : Color) (glow speed blur : string) : GenreTheme :=
  {| name := n;
     baseColors := {| primary := p; secondary := s; accent := a |};
     effects := {| glowIntensity := glow; animationSpeed := speed;
                   blurStrength := blur |} |}.

(** [GENRE_THEMES] as the module is loaded.  The object is shared by every
    call, so the engine's state below carries its current value. *)
Definition GENRE_THEMES : gmap string GenreTheme :=
  list_to_map
    [ ("trance", mkGenre "Ethereal Trance"
         (rgb 139 92 246) (rgb 236 72 153) (rgb 6 182 212) "30px" "2s" "12px");
      ("hardcore", mkGenre "Hardcore Energy"
         (rgb 239 68 68) (rgb 249 115 22) (rgb 251 191 36) "35px" "0.5s" "8px");
      ("hardstyle", mkGenre "Hardstyle Power"
         (rgb 239 68 68) (rgb 249 115 22) (rgb 251 191 36) "32px" "0.6s" "10px");
      ("techno", mkGenre "Techno Minimal"
         (rgb 59 130 246) (rgb 139 92 246) (rgb 236 72 153) "20px" "1.2s" "10px");
      ("house", mkGenre "House Groove"
         (rgb 16 185 129) (rgb 6 182 212) (rgb 139 92 246) "22px" "1.5s" "10px");
      ("dnb", mkGenre "Drum & Bass"
         (rgb 236 72 153) (rgb 6 182 212) (rgb 251 191 36) "25px" "0.8s" "10px");
      ("default", mkGenre "Default"
         (rgb 139 92 246) (rgb 236 72 153) (rgb 6 182 212) "20px" "1s" "10px") ].

(** [GENRE_MAP], in the order [Object.entries] lists it. *)
Definition GENRE_MAP : list (string * string) :=
  [ ("trance", "trance"); ("progressive trance", "trance");
    ("uplifting trance", "trance"); ("vocal trance", "trance");
    ("psytrance", "trance"); ("psy trance", "trance");
    ("hardcore", "hardcore"); ("frenchcore", "hardcore");
    ("speedcore", "hardcore"); ("uptempo hardcore", "hardcore");
    ("gabber", "hardcore"); ("industrial hardcore", "hardcore");
    ("hardstyle", "hardstyle"); ("rawstyle", "hardstyle");
    ("euphoric hardstyle", "hardstyle");
    ("techno", "techno"); ("minimal techno", "techno");
    ("acid techno", "techno"); ("detroit techno", "techno");
    ("house", "house"); ("tech house", "house"); ("deep house", "house");
    ("progressive house", "house"); ("electro house", "house");
    ("drum and bass", "dnb"); ("dnb", "dnb"); ("jungle", "dnb");
    ("neurofunk", "dnb"); ("liquid dnb", "dnb") ].

(** The property names that every object literal inherits from
    [Object.prototype] in a browser.  Under ['__proto__'] sits
    [Object.prototype] itself, under each of the others a function; all of
    them are truthy. *)
Definition inheritedNames : list string :=
  [ "constructor"; "hasOwnProperty"; "isPrototypeOf"; "propertyIsEnumerable";
    "toLocaleString"; "toString"; "valueOf"; "__proto__";
    "__defineGetter__"; "__defineSetter__"; "__lookupGetter__";
    "__lookupSetter__" ].

(** What [detectGenreTheme] returns: the name of a genre, or the object
    that [GENRE_MAP] inherits under the given property name. *)
Inductive GenreKey :=
| Named (genre : string)
| Inherited (property : string).

(** [GENRE_MAP[normalized]] where it is truthy: the value the literal
    declares under that key, or else what the literal inherits under it. *)
Definition genreMapGet (normalized : string) : option GenreKey :=
  match find (λ e, bool_decide (e.1 = normalized)) GENRE_MAP with
  | Some e => Some (Named e.2)
  | None =>
    if decide (normalized ∈ inheritedNames) then Some (Inherited normalized)
    else None
  end.

Section WithHost.

(** [String.prototype.toLowerCase] on text that is not plain ASCII: the
    Unicode case mapping of the host, of which the code uses nothing in
    particular. *)
Variable unicodeLowerCase : string → string.

(** [String.prototype.toLowerCase]. *)
Definition toLowerCase (s : string) : string :=
  if isAscii s then asciiLowerCase s else unicodeLowerCase s.

(** The body of [for (const genre of genres)]. *)
Fixpoint detectLoop (genres : list string) : GenreKey :=
  match genres with
  | [] => Named "default"
  | genre :: rest =>
    let normalized := trim (toLowerCase genre) in
    match genreMapGet normalized with
    | Some value => value
    | None =>
      match find (λ e, includes normalized e.1 || includes e.1 normalized) GENRE_MAP with
      | Some e => Named e.2
      | None => detectLoop rest
      end
    end
  end.

(** [detectGenreTheme(genres)]. *)
Definition detectGenreTheme (genres : option (list string)) : GenreKey :=
  match genres with
  | None => Named "default"
  | Some l => detectLoop l
  end.

End WithHost.

(** *** Inputs and outputs *)

(** [trackData.features]; an absent or [null] field is [None]. *)
Record TrackFeatures := {
  f_bpm : option Q;
  f_energy : option Q;
  f_valence : option Q;
  f_danceability : option Q
}.

(** [trackData.track]: of its fields the engine reads [albumArt] only. *)
Record Track := { albumArt : option string }.

Record TrackData := {
  track : option Track;
  features : option TrackFeatures;
  genres : option (list string)
}.

Record AudioFeatures := { energy : Q; valence : Q; danceability : Q }.

Record ThemeColors := {
  c_primary : string;
  c_secondary : string;
  c_accent : string;
  c_background : string;
  c_text : string;
  c_textSecondary : string
}.

Record ThemeEffects := {
  e_glowIntensity : string;
  e_animationSpeed : string;
  e_blurStrength : string;
  e_beatDuration : string
}.

Record ThemeRecord := {
  t_source : string;
  t_genre : GenreKey;
  t_genreName : string;
  t_colors : ThemeColors;
  t_effects : ThemeEffects;
  t_audioFeatures : AudioFeatures;
  t_bpm : Q;
  t_intensityClass : string;
  t_timestamp : Z
}.

(** The light state; Home Assistant reports [rgb_color] as an array of three
    integers or not at all. *)
Record LightState := { rgb_color : option (Z * Z * Z) }.

(** What a method without a [return] value on every path hands back. *)
Inductive JsReturn := ReturnsUndefined | ReturnsBool (v : bool).

(** *** State *)

Record ThemeEngine := {
  currentTheme : option ThemeRecord;
  syncWithHA : bool;
  albumArtColors : option Palette;
  haLightColors : option Color;
  beatEngine : Beat.System AudioFeatures;
  currentBPM : option Q;
  audioFeatures : option AudioFeatures
}.

(** The engine and the module-level table it shares with every other call. *)
Record World := {
  table : gmap string GenreTheme;
  this : ThemeEngine
}.

(** [constructor(eventBus)]; [bus] tells whether a bus was passed. *)
Definition new (bus : bool) : World :=
  {| table := GENRE_THEMES;
     this := {| currentTheme := None; syncWithHA := false;
                albumArtColors := None; haLightColors := None;
                beatEngine := Beat.new bus; currentBPM := None;
                audioFeatures := None |} |}.

(** The local variable [colors]: either the very object
    [genreTheme.baseColors] of the table entry under [key], or the object
    literal built from the extracted palette. *)
Inductive ColorsRef :=
| BaseColorsOf (key : string)
| Literal (c : BaseColors).

(** [x || d] on an optional number: absent and zero are falsy. *)
Definition orDefault (x : option Q) (d : Q) : Q :=
  match x with
  | Some q => if Qeq_bool q 0 then d else q
  | None => d
  end.

(** [Math.round]: round half up. *)
Definition round (x : Q) : Z := Qfloor (x + (1 # 2))%Q.

(** *** Methods *)

Section WithImages.

(** The Unicode case mapping of the host, as in [toLowerCase]. *)
Variable unicodeLowerCase : string → string.

(** What the browser does when asked for the image behind a URL. *)
Variable loadImage : string → ImageLoad.

(** [GENRE_THEMES[genreKey] || GENRE_THEMES.default]: the entry that is
    found and the key it sits under.  An inherited object used as a property
    key is converted to a string, the source text of a function or
    ['[object Object]'], which names no entry of the table.  The names that
    [detectGenreTheme] answers are the values of [GENRE_MAP] and
    ['default'], which the table looks up among its own entries. *)
Definition genreEntry (tbl : gmap string GenreTheme) (genreKey : GenreKey)
  : option (string * GenreTheme) :=
  match genreKey with
  | Named genre =>
    match tbl !! genre with
    | Some entry => Some (genre, entry)
    | None => (λ entry, ("default", entry)) <$> tbl !! "default"
    end
  | Inherited _ => (λ entry, ("default", entry)) <$> tbl !! "default"
  end.

(** A truthy [trackData.track.albumArt]. *)
Definition truthyUrl (url : option string) : option string :=
  match url with
  | Some u => if decide (u = "") then None else Some u
  | None => None
  end.

Definition setPrimary (value : Color) (c : BaseColors) : BaseColors :=
  {| primary := value; secondary := secondary c; accent := accent c |}.

(** The object behind [colors], given the current value of [genreTheme]. *)
Definition deref (genreTheme : GenreTheme) (colors : ColorsRef) : BaseColors :=
  match colors with
  | BaseColorsOf _ => baseColors genreTheme
  | Literal c => c
  end.

(** [colors.primary = value].  When [colors] is the table entry's own
    [baseColors] object the write lands in the table. *)
Definition assignPrimary (value : Color) (tbl : gmap string GenreTheme)
    (genreTheme : GenreTheme) (colors : ColorsRef)
  : gmap string GenreTheme * GenreTheme * ColorsRef :=
  match colors with
  | BaseColorsOf key =>
    let written := {| name := name genreTheme;
                      baseColors := setPrimary value (baseColors genreTheme);
                      effects := effects genreTheme |} in
    (<[ key := written ]> tbl, written, colors)
  | Literal c => (tbl, genreTheme, Literal (setPrimary value c))
  end.

(** [this.syncWithHA && this.haLightColors]. *)
Definition activeOverride (e : ThemeEngine) : option Color :=
  if syncWithHA e then haLightColors e else None.

(** The intensity class; the thresholds are the decimals 0.4 and 0.7. *)
Definition intensityOf (energy : Q) : string :=
  if negb (Qle_bool (4 # 10) energy) then "low"
  else if negb (Qle_bool energy (7 # 10)) then "high"
  else "medium".

(** [`${Math.round(60000 / bpm)}ms`], or ['1000ms'] for a falsy [bpm]. *)
Definition beatDurationOf (bpm : Q) : string :=
  if Qeq_bool bpm 0 then "1000ms"
  else pretty (round (60000 / bpm)%Q) +:+ "ms".

(** The album-art block: [colors] and [this.albumArtColors] after it.  A
    rejected extraction is caught and logged, and [colors] stays what it
    was: the table entry's own [baseColors]. *)
Definition albumArtBlock (tr : Track) (slot : string) (genreTheme : GenreTheme)
    (e : ThemeEngine) : ColorsRef * option Palette :=
  match truthyUrl (albumArt tr) with
  | Some url =>
    match extractColors (loadImage url) 5 with
    | Resolved extracted =>
      (Literal {| primary := dominant extracted;
                  secondary := default (dominant extracted)
                                       (palette extracted !! 1%nat);
                  accent := accent (baseColors genreTheme) |},
       Some extracted)
    | Rejected => (BaseColorsOf slot, albumArtColors e)
    end
  | None => (BaseColorsOf slot, albumArtColors e)
  end.

(** [if (this.syncWithHA && this.haLightColors) colors.primary = ...]. *)
Definition overrideBlock (e : ThemeEngine) (tbl : gmap string GenreTheme)
    (genreTheme : GenreTheme) (colors : ColorsRef)
  : gmap string GenreTheme * GenreTheme * ColorsRef :=
  match activeOverride e with
  | Some value => assignPrimary value tbl genreTheme colors
  | None => (tbl, genreTheme, colors)
  end.

(** [trackData.features?.bpm || 120]. *)
Definition bpmOf (td : TrackData) : Q := orDefault (features td ≫= f_bpm) 120.

(** The object literal [audioFeatures]. *)
Definition audioFeaturesOf (td : TrackData) : AudioFeatures :=
  {| energy := orDefault (features td ≫= f_energy) (1 # 2);
     valence := orDefault (features td ≫= f_valence) (1 # 2);
     danceability := orDefault (features td ≫= f_danceability) (1 # 2) |}.

(** [if (bpm && bpm > 0) this.beatEngine.setBPM(bpm, audioFeatures)]. *)
Definition beatBlock (tickTime : Z) (bpm : Q) (audio : AudioFeatures)
    (beat : Beat.System AudioFeatures)
  : Beat.System AudioFeatures * Beat.Completion :=
  if negb (Qeq_bool bpm 0) && negb (Qle_bool bpm 0)
  then Beat.setBPM tickTime (Beat.Number (Beat.Finite bpm)) audio beat
  else (beat, Beat.Normal).

(** The object literal [theme]. *)
Definition buildTheme (e : ThemeEngine) (genreKey : GenreKey) (genreTheme : GenreTheme)
    (colors : BaseColors) (bpm : Q) (audio : AudioFeatures) (themeTime : Z)
  : ThemeRecord :=
  {| t_source := match activeOverride e with
                 | Some _ => "homeassistant"
                 | None => "spotify"
                 end;
     t_genre := genreKey;
     t_genreName := name genreTheme;
     t_colors := {| c_primary := rgbToString (primary colors);
                    c_secondary := rgbToString (secondary colors);
                    c_accent := rgbToString (accent colors);
                    c_background := "rgba(0, 0, 0, 0.7)";
                    c_text := "#ffffff";
                    c_textSecondary := "rgba(255, 255, 255, 0.7)" |};
     t_effects := {| e_glowIntensity := glowIntensity (effects genreTheme);
                     e_animationSpeed := animationSpeed (effects genreTheme);
                     e_blurStrength := blurStrength (effects genreTheme);
                     e_beatDuration := beatDurationOf bpm |};
     t_audioFeatures := audio;
     t_bpm := bpm;
     t_intensityClass := intensityOf (energy audio);
     t_timestamp := themeTime |}.

(** [generateThemeFromTrack(trackData)].  [tickTime] and [themeTime] are the
    two readings of [Date.now()], in the beat tick and in the theme.  An
    exception that nothing catches rejects the promise of the [async]
    method; the state written before it stays written. *)
Definition generateThemeFromTrack (tickTime themeTime : Z)
    (trackData : option TrackData) (w : World)
  : World * Settled (option ThemeRecord) :=
  match trackData with
  | None => (w, Resolved None)
  | Some td =>
    match track td with
    | None => (w, Resolved None)
    | Some tr =>
      let genreKey :=
        detectGenreTheme unicodeLowerCase (Some (default [] (genres td))) in
      match genreEntry (table w) genreKey with
      | None => (w, Rejected)
      | Some (slot, genreTheme) =>
        let e := this w in
        let art := albumArtBlock tr slot genreTheme e in
        let written := overrideBlock e (table w) genreTheme art.1 in
        let tbl := written.1.1 in
        let genreTheme' := written.1.2 in
        let colors := written.2 in
        let bpm := bpmOf td in
        let audio := audioFeaturesOf td in
        let beat := beatBlock tickTime bpm audio (beatEngine e) in
        let e1 := {| currentTheme := currentTheme e; syncWithHA := syncWithHA e;
                     albumArtColors := art.2;
                     haLightColors := haLightColors e; beatEngine := beat.1;
                     currentBPM := Some bpm; audioFeatures := Some audio |} in
        match beat.2 with
        | Beat.Thrown => ({| table := tbl; this := e1 |}, Rejected)
        | Beat.Normal =>
          let theme := buildTheme e genreKey genreTheme' (deref genreTheme' colors)
                                  bpm audio themeTime in
          ({| table := tbl;
              this := {| currentTheme := Some theme; syncWithHA := syncWithHA e;
                         albumArtColors := art.2;
                         haLightColors := haLightColors e;
                         beatEngine := beat.1;
                         currentBPM := Some bpm;
                         audioFeatures := Some audio |} |},
           Resolved (Some theme))
        end
      end
    end
  end.

End WithImages.

(** [updateFromHomeAssistant(lightState)]. *)
Definition updateFromHomeAssistant (lightState : option LightState) (e : ThemeEngine)
  : ThemeEngine * JsReturn :=
  match lightState ≫= rgb_color with
  | None =>
    ({| currentTheme := currentTheme e; syncWithHA := syncWithHA e;
        albumArtColors := albumArtColors e; haLightColors := None;
        beatEngine := beatEngine e; currentBPM := currentBPM e;
        audioFeatures := audioFeatures e |}, ReturnsUndefined)
  | Some (x, y, z) =>
    ({| currentTheme := currentTheme e; syncWithHA := syncWithHA e;
        albumArtColors := albumArtColors e; haLightColors := Some (rgb x y z);
        beatEngine := beatEngine e; currentBPM := currentBPM e;
        audioFeatures := audioFeatures e |},
     ReturnsBool (match currentTheme e with Some _ => true | None => false end))
  end.


(** [setSyncWithHomeAssistant(enabled)]. *)
Definition setSyncWithHomeAssistant (enabled : bool) (e : ThemeEngine) : ThemeEngine :=
  {| currentTheme := currentTheme e; syncWithHA := enabled;
     albumArtColors := albumArtColors e; haLightColors := haLightColors e;
     beatEngine := beatEngine e; currentBPM := currentBPM e;
     audioFeatures := audioFeatures e |}.

End Theme.

(** ** Concrete engines and tracks used in the examples *)

Module Runs.

Import Extractor Theme.

(** The case mapping of the host in the examples.  Their tags are plain
    ASCII, for which [toLowerCase] does not consult it; it leaves its text
    as it is. *)
Definition unmapped (s : string) : string := s.

(** An image host whose every image is one opaque orange pixel. *)
Definition orange (url : string) : ImageLoad :=
  Loaded (Some [ {| pr := 250; pg := 120; pb := 10; pa := 255 |} ]).

(** An image host with no image. *)
Definition offline (url : string) : ImageLoad := LoadError.

(** A fresh engine after [setSyncWithHomeAssistant(true)] and
    [updateFromHomeAssistant({ rgb_color: [10, 20, 30] })]. *)
Definition synced : World :=
  {| table := table (new true);
     this := (updateFromHomeAssistant (Some {| rgb_color := Some (10, 20, 30) |})
                (setSyncWithHomeAssistant true (this (new true)))).1 |}.


(** A track with no album art and no genre. *)
Definition plain : TrackData :=
  {| track := Some {| albumArt := None |}; features := None; genres := None |}.

(** A track whose audio features report an energy of 0. *)
Definition silent : TrackData :=
  {| track := Some {| albumArt := None |};
     features := Some {| f_bpm := Some 128%Q; f_energy := Some 0%Q;
                         f_valence := Some (3 # 10)%Q;
                         f_danceability := Some (7 # 10)%Q |};
     genres := Some ["trance"] |}.

End Runs.

(** ** The bus and its channel (event-bus.js: [connect], [emit], [disconnect]) *)

Module Endpoint.

Section WithPayload.

Context {Data : Type}.

(** Whether the structured clone of [postMessage] accepts a payload.  One it
    refuses raises a [DataCloneError], which [emit] catches and logs. *)
Variable cloneable : Data → bool.

(** The bus together with [this.channel]: [true] while a [BroadcastChannel]
    is held, [false] for [null]. *)
Record Endpoint := {
  core : Bus.EventBus;
  channel : bool
}.

(** [constructor], whose [connect] keeps the channel only where the browser
    supports [BroadcastChannel]. *)
Definition new (supported : bool) : Endpoint :=
  {| core := Bus.new; channel := supported |}.

(** [emit(type, data)] at time [now]: the message handed to the channel, if
    one is.  The bus itself is not changed. *)
Definition emit (now : Z) (type : string) (data : Data) (ep : Endpoint)
  : option (Bus.Message Data) :=
  if channel ep then
    if cloneable data
    then Some {| Bus.mtype := Some type; Bus.mdata := data; Bus.mtimestamp := now |}
    else None
  else None.

(** [channel.onmessage]: a message posted by another endpoint of the same
    channel name arrives at time [now].  A closed channel delivers nothing. *)
Definition receive (now : Z) (m : Bus.Message Data) (ep : Endpoint)
  : Endpoint * list (Bus.Call Data) :=
  if channel ep then
    ({| core := (Bus.handleMessage now (Some m) (core ep)).1; channel := true |},
     (Bus.handleMessage now (Some m) (core ep)).2)
  else (ep, []).

(** [disconnect()].  The pending [setTimeout] callbacks are not cancelled. *)
Definition disconnect (ep : Endpoint) : Endpoint :=
  {| core := {| Bus.listeners := ∅; Bus.messageHistory := ∅;
                Bus.timers := Bus.timers (core ep);
                Bus.deduplicationWindow := Bus.deduplicationWindow (core ep) |};
     channel := false |}.

End WithPayload.

Arguments Endpoint : clear implicits.

End Endpoint.

(** ** The life of a beat engine (beat-engine.js, every method) *)

Module BeatLife.

Import Beat.

Section WithFeatures.

Context {Features : Type}.

(** The states an engine goes through: construction, then any of its
    methods and any firing of an interval timer, in any order.  The state
    left by a call that raised is a state like any other. *)
Inductive Reachable : System Features → Prop :=
| R_new bus : Reachable (new bus)
| R_setBPM now arg features s : Reachable s → Reachable (setBPM now arg features s).1
| R_startBeat now s : Reachable s → Reachable (startBeat now s).1
| R_stopBeat s : Reachable s → Reachable (stopBeat s)
| R_emitBeat now s : Reachable s → Reachable (emitBeat now s).1
| R_tick now id s : Reachable s → Reachable (intervalTick now id s).1
| R_destroy s : Reachable s → Reachable (destroy s).

(** The timer [id] firing once at each of the given times. *)
Definition ticks (times : list Z) (id : positive) (s : System Features)
  : System Features :=
  foldl (λ s now, (intervalTick now id s).1) s times.

(** The timer table names exactly the timer the engine remembers, and the
    engine remembers one only while it is running. *)
Definition one_timer (s : System Features) : Prop :=
  (intervals s).*1 = option_list (beatTimerId (engine s))
  ∧ (isRunning (engine s) = false → beatTimerId (engine s) = None).

End WithFeatures.

End BeatLife.

(** ** Vocabulary for palettes (color-extractor.js) *)

Module Palettes.

Import Extractor.

(** The colour of a pixel, alpha dropped. *)
Definition colorOf (p : Pixel) : Color := {| r := pr p; g := pg p; b := pb p |}.

(** Every channel of the colour lies between [lo] and [hi]. *)
Definition inRange (lo hi : Z) (c : Color) : Prop :=
  (lo ≤ r c ≤ hi) ∧ (lo ≤ g c ≤ hi) ∧ (lo ≤ b c ≤ hi).

(** No colour of the list is more vibrant than one before it. *)
Fixpoint ranked (l : list Color) : Prop :=
  match l with
  | [] => True
  | x :: rest =>
    Forall (λ y, (calculateVibrancy y <= calculateVibrancy x)%Q) rest ∧ ranked rest
  end.

End Palettes.

(** ** Tags and inherited names (theme-engine.js: [detectGenreTheme]) *)

Module Genres.

(** No tag of the list normalizes to a property name that [GENRE_MAP]
    inherits from [Object.prototype]. *)
Definition plainTags (unicodeLowerCase : string → string) (tags : list string) : Prop :=
  Forall (λ tag, Theme.trim (Theme.toLowerCase unicodeLowerCase tag)
                 ∉ Theme.inheritedNames) tags.

(** The entry of the table that [GENRE_THEMES[genreKey] || GENRE_THEMES.default]
    selects, said with the lookups themselves: the entry under the name of
    the genre where the table has one, the entry under ['default'] where it
    has none and for an inherited object. *)
Definition selects (tbl : gmap string Theme.GenreTheme) (genreKey : Theme.GenreKey)
    (slot : string) (entry : Theme.GenreTheme) : Prop :=
  match genreKey with
  | Theme.Named genre =>
    (slot = genre ∧ tbl !! genre = Some entry)
    ∨ (slot = "default" ∧ tbl !! genre = None ∧ tbl !! "default" = Some entry)
  | Theme.Inherited _ => slot = "default" ∧ tbl !! "default" = Some entry
  end.

End Genres.

(** ** More tracks for the examples *)

Module MoreRuns.

Import Theme.

(** A track reported at 400 BPM, with no album art. *)
Definition frantic : TrackData :=
  {| track := Some {| albumArt := None |};
     features := Some {| f_bpm := Some 400%Q; f_energy := Some (9 # 10)%Q;
                         f_valence := None; f_danceability := None |};
     genres := Some ["speedcore"] |}.

(** A techno track with no album art. *)
Definition detroit : TrackData :=
  {| track := Some {| albumArt := None |};
     features := None;
     genres := Some ["Detroit Techno"] |}.

(** A hardcore track with album art. *)
Definition hardcoreWithArt : TrackData :=
  {| track := Some {| albumArt := Some "https://i.scdn.co/image/ab67" |};
     features := None;
     genres := Some ["Frenchcore"] |}.

End MoreRuns.

(** ** Home Assistant service (src/shared/services/home-assistant-service.js):
       reconnection *)

Module HomeAssistant.

Definition Handler := nat.

(** The fields that [handleReconnect], [ws.onclose] and the [auth_ok] branch
    of [handleMessage] read or write, and the listener registry they carry
    along. *)
Record Service := {
  isConnected : bool;
  reconnectAttempts : Z;
  maxReconnectAttempts : Z;
  reconnectDelay : Z;
  maxReconnectDelay : Z;
  listeners : gmap string (list Handler)
}.

(** [constructor]. *)
Definition new : Service :=
  {| isConnected := false; reconnectAttempts := 0; maxReconnectAttempts := 10;
     reconnectDelay := 1000; maxReconnectDelay := 30000; listeners := ∅ |}.

(** [handleReconnect()]: the new state and the delay of the reconnection it
    schedules, if it schedules one.  [Math.pow(2, n)] is exact on these
    integers. *)
Definition handleReconnect (svc : Service) : Service * option Z :=
  if maxReconnectAttempts svc <=? reconnectAttempts svc then (svc, None)
  else
    let attempts := reconnectAttempts svc + 1 in
    ({| isConnected := isConnected svc; reconnectAttempts := attempts;
        maxReconnectAttempts := maxReconnectAttempts svc;
        reconnectDelay := reconnectDelay svc;
        maxReconnectDelay := maxReconnectDelay svc;
        listeners := listeners svc |},
     Some (Z.min (reconnectDelay svc * 2 ^ (attempts - 1)) (maxReconnectDelay svc))).

(** [ws.onclose]. *)
Definition onclose (svc : Service) : Service * option Z :=
  handleReconnect
    {| isConnected := false; reconnectAttempts := reconnectAttempts svc;
       maxReconnectAttempts := maxReconnectAttempts svc;
       reconnectDelay := reconnectDelay svc;
       maxReconnectDelay := maxReconnectDelay svc;
       listeners := listeners svc |}.

(** The [auth_ok] branch of [handleMessage], up to the subscription it sends. *)
Definition authOk (svc : Service) : Service :=
  {| isConnected := true; reconnectAttempts := 0;
     maxReconnectAttempts := maxReconnectAttempts svc;
     reconnectDelay := 1000;
     maxReconnectDelay := maxReconnectDelay svc;
     listeners := listeners svc |}.

(** [n] closes in a row, no [auth_ok] between them. *)
Definition closes (n : nat) (svc : Service) : Service :=
  Nat.iter n (λ s, (onclose s).1) svc.

End HomeAssistant.

(** * Properties *)

(** ** Event bus *)

Section BusFacts.

Import Bus.
Context {Data : Type}.
Implicit Types (bus s : EventBus) (h cb : Handler) (type : string).

Lemma messageKey_inj type ts1 ts2 :
  messageKey type ts1 = messageKey type ts2 → ts1 = ts2.
Proof.
  unfold messageKey. intros H.
  apply (inj (String.app type)) in H.
  apply (inj (String.app "-")) in H.
  by apply (inj pretty) in H.
Qed.

Lemma set_add_NoDup cb (l : list Handler) : NoDup l → NoDup (set_add cb l).
Proof.
  intros Hl. unfold set_add. case_decide; [done|].
  apply NoDup_app. repeat split; [done| |apply NoDup_singleton].
  intros x Hx Hx'. apply list_elem_of_singleton in Hx'. by subst.
Qed.

Lemma listenersOf_NoDup bus type : listeners_ok bus → NoDup (listenersOf bus type).
Proof.
  intros Hok. unfold listenersOf.
  destruct (listeners bus !! type) as [l|] eqn:E; simpl; [by eapply Hok|constructor].
Qed.

Lemma on1_listeners_ok cb bus type : listeners_ok bus → listeners_ok (on1 cb bus type).
Proof.
  intros Hok t l. unfold on1; simpl.
  rewrite lookup_insert. case_decide as E.
  - intros [= <-]. by apply set_add_NoDup, listenersOf_NoDup.
  - apply Hok.
Qed.

Lemma off1_listeners_ok cb bus type : listeners_ok bus → listeners_ok (off1 cb bus type).
Proof.
  intros Hok t l. unfold off1.
  destruct (listeners bus !! type) as [l0|] eqn:E; [|apply Hok]. simpl.
  rewrite lookup_insert. case_decide.
  - intros [= <-]. apply NoDup_filter. by eapply Hok.
  - apply Hok.
Qed.

Lemma on_listeners_ok types cb bus : listeners_ok bus → listeners_ok (on types cb bus).
Proof.
  unfold on. revert bus.
  induction types as [|t types IH]; intros bus Hok; simpl; [done|].
  by apply IH, on1_listeners_ok.
Qed.

Lemma off_listeners_ok types cb bus : listeners_ok bus → listeners_ok (off types cb bus).
Proof.
  unfold off. revert bus.
  induction types as [|t types IH]; intros bus Hok; simpl; [done|].
  by apply IH, off1_listeners_ok.
Qed.

(** [on] and [off] leave the history and the timers alone. *)
Lemma on_frame types cb bus :
  messageHistory (on types cb bus) = messageHistory bus
  ∧ timers (on types cb bus) = timers bus
  ∧ deduplicationWindow (on types cb bus) = deduplicationWindow bus.
Proof.
  unfold on. revert bus.
  induction types as [|t types IH]; intros bus; simpl; [done|].
  destruct (IH (on1 cb bus t)) as (-> & -> & ->). done.
Qed.

Lemma off_frame types cb bus :
  messageHistory (off types cb bus) = messageHistory bus
  ∧ timers (off types cb bus) = timers bus
  ∧ deduplicationWindow (off types cb bus) = deduplicationWindow bus.
Proof.
  unfold off. revert bus.
  induction types as [|t types IH]; intros bus; simpl; [done|].
  destruct (IH (off1 cb bus t)) as (-> & -> & ->).
  unfold off1. by destruct (listeners bus !! t).
Qed.

Lemma remove_first_sublist tm (l : list (Z * string)) : remove_first tm l `sublist_of` l.
Proof.
  induction l as [|x l IH]; simpl; [done|].
  case_decide; [by apply sublist_cons|by apply sublist_skip].
Qed.

Lemma remove_first_other_key tm (l : list (Z * string)) x :
  NoDup l.*2 → tm ∈ l → x ∈ remove_first tm l → x.2 ≠ tm.2.
Proof.
  induction l as [|y l IH]; simpl; intros Hnd Htm Hx; [by apply elem_of_nil in Htm|].
  apply NoDup_cons in Hnd as [Hy Hnd].
  case_decide as E.
  - subst y. intros Heq. apply Hy. rewrite <- Heq.
    by apply list_elem_of_fmap_2.
  - apply elem_of_cons in Htm as [->|Htm]; [done|].
    apply elem_of_cons in Hx as [->|Hx]; [|by apply IH].
    intros Heq. apply Hy. rewrite Heq. by apply list_elem_of_fmap_2.
Qed.

Lemma handleMessage_timers_ok now (m : option (Message Data)) bus :
  timers_ok bus → timers_ok (handleMessage now m bus).1.
Proof.
  intros [Hnd Hin]. unfold handleMessage.
  destruct m as [m|]; [|done]. destruct (mtype m) as [type|]; [|done].
  case_decide; [done|]. case_decide as Hfresh; [done|]. unfold timers_ok; cbn [fst timers messageHistory]. split.
  - rewrite fmap_app. apply NoDup_app. repeat split; [done| |apply NoDup_singleton].
    intros k Hk Hk'. apply list_elem_of_singleton in Hk'. subst k.
    apply list_elem_of_fmap in Hk as (tm & Heq & Htm). apply Hfresh.
    simpl in Heq. rewrite Heq. by apply Hin.
  - intros tm Htm. apply elem_of_app in Htm as [Htm|Htm].
    + apply elem_of_union_r. by apply Hin.
    + apply list_elem_of_singleton in Htm. subst tm. simpl.
      apply elem_of_union_l. by apply elem_of_singleton.
Qed.

Lemma fireTimer_timers_ok now tm bus : timers_ok bus → timers_ok (fireTimer now tm bus).
Proof.
  intros [Hnd Hin]. unfold fireTimer. case_decide as Hdue; [|done].
  destruct Hdue as [Htm _]. simpl. split.
  - eapply sublist_NoDup; [exact Hnd|]. apply fmap_sublist, remove_first_sublist.
  - intros x Hx. apply elem_of_difference. split.
    + apply Hin. eapply elem_of_sublist; [exact Hx|apply remove_first_sublist].
    + intros Hk. apply elem_of_singleton in Hk.
      by eapply remove_first_other_key.
Qed.

(** The two invariants hold in every state the bus reaches. *)
Lemma Reachable_ok bus : Reachable (Data:=Data) bus → listeners_ok bus ∧ timers_ok bus.
Proof.
  induction 1 as [|types cb bus _ [IHl IHt]|types cb bus _ [IHl IHt]
                  |now m bus _ [IHl IHt]|now tm bus _ [IHl IHt]].
  - split.
    + intros t l. simpl. by rewrite lookup_empty.
    + split; simpl; [constructor|]. intros tm Htm. by apply elem_of_nil in Htm.
  - split; [by apply on_listeners_ok|].
    destruct (on_frame types cb bus) as (Hh & Ht & _).
    unfold timers_ok. by rewrite Hh, Ht.
  - split; [by apply off_listeners_ok|].
    destruct (off_frame types cb bus) as (Hh & Ht & _).
    unfold timers_ok. by rewrite Hh, Ht.
  - split; [|by apply handleMessage_timers_ok].
    unfold handleMessage. destruct m as [m|]; [|done].
    destruct (mtype m); [|done]. by repeat case_decide.
  - split; [|by apply fireTimer_timers_ok].
    unfold fireTimer. by case_decide.
Qed.

End BusFacts.

Section BusDedup.

Import Bus.
Context {Data : Type}.
Implicit Types (bus s : EventBus) (h cb : Handler) (type : string).

Lemma count_not_in h (l : list Handler) :
  h ∉ l → length (filter (λ x, x = h) l) = 0%nat.
Proof.
  induction l as [|x l IH]; intros Hn; [done|].
  apply not_elem_of_cons in Hn as [Hne Hn].
  rewrite filter_cons. case_decide; [by subst|by apply IH].
Qed.

Lemma count_NoDup_in h (l : list Handler) :
  NoDup l → h ∈ l → length (filter (λ x, x = h) l) = 1%nat.
Proof.
  induction 1 as [|x l Hx Hl IH]; intros Hin; [by apply elem_of_nil in Hin|].
  rewrite filter_cons. case_decide as E.
  - subst x. simpl. by rewrite count_not_in.
  - apply elem_of_cons in Hin as [->|Hin]; [done|]. by apply IH.
Qed.

Lemma invocations_app h (c1 c2 : list (Call Data)) :
  invocations h (c1 ++ c2) = (invocations h c1 + invocations h c2)%nat.
Proof. unfold invocations. by rewrite filter_app, length_app. Qed.

Lemma invocations_map h (d : Data) type (l : list Handler) :
  invocations h (map (λ cb, {| callee := cb; arg_data := d; arg_type := type |}) l)
  = length (filter (λ x, x = h) l).
Proof.
  unfold invocations. induction l as [|x l IH]; [done|].
  simpl. rewrite !filter_cons. simpl. case_decide; simpl; by rewrite IH.
Qed.

(** One pass of the two loops calls [h] once per registration it reaches. *)
Lemma invocations_dispatch bus type (d : Data) h :
  invocations h (dispatch bus type d)
  = (length (filter (λ x, x = h) (listenersOf bus type))
     + length (filter (λ x, x = h) (listenersOf bus "*")))%nat.
Proof. unfold dispatch. by rewrite invocations_app, !invocations_map. Qed.

Lemma dispatch_once bus type (d : Data) h :
  listeners_ok bus → subscribedOnce bus type h →
  invocations h (dispatch bus type d) = 1%nat.
Proof.
  intros Hok Hsub. rewrite invocations_dispatch.
  destruct Hsub as [[Hin Hout]|[Hout Hin]].
  - rewrite count_NoDup_in, count_not_in; auto using listenersOf_NoDup.
  - rewrite count_not_in, count_NoDup_in; auto using listenersOf_NoDup.
Qed.

(** A message with a usable type whose key is not remembered is accepted. *)
Lemma handleMessage_fresh now type (d : Data) ts bus :
  type ≠ "" → messageKey type ts ∉ messageHistory bus →
  handleMessage now (Some {| mtype := Some type; mdata := d; mtimestamp := ts |}) bus
  = ({| listeners := listeners bus;
        messageHistory := {[ messageKey type ts ]} ∪ messageHistory bus;
        timers := timers bus ++ [(now + deduplicationWindow bus, messageKey type ts)];
        deduplicationWindow := deduplicationWindow bus |},
     dispatch bus type d).
Proof. intros Hty Hk. unfold handleMessage. simpl. by rewrite !decide_False. Qed.

(** A message whose key is remembered is dropped. *)
Lemma handleMessage_duplicate now type (d : Data) ts bus :
  messageKey type ts ∈ messageHistory bus →
  handleMessage now (Some {| mtype := Some type; mdata := d; mtimestamp := ts |}) bus
  = (bus, []).
Proof.
  intros Hk. unfold handleMessage. simpl.
  case_decide; [done|]. by rewrite decide_True.
Qed.

(** While no timer of [key] is due, timer callbacks leave [key] remembered. *)
Lemma fireTimers_keeps key (limit : Z) evs bus :
  Forall (λ ev : Z * (Z * string), ev.1 ≤ limit) evs →
  key ∈ messageHistory bus →
  (∀ tm, tm ∈ timers bus → tm.2 = key → limit < tm.1) →
  key ∈ messageHistory (fireTimers evs bus).
Proof.
  unfold fireTimers. intros Hevs. revert bus.
  induction Hevs as [|ev evs Hev _ IH]; intros bus Hin Hdue; simpl; [done|].
  apply IH.
  - unfold fireTimer. case_decide as Hf; [|done]. simpl.
    destruct Hf as [Htm Hle]. apply elem_of_difference. split; [done|].
    intros Hk. apply elem_of_singleton in Hk.
    specialize (Hdue _ Htm (eq_sym Hk)). lia.
  - intros tm Htm Hk. apply Hdue; [|done].
    unfold fireTimer in Htm. case_decide; [|done]. simpl in Htm.
    eapply elem_of_sublist; [exact Htm|apply remove_first_sublist].
Qed.

(** Timer callbacks never add a key and never touch the registry. *)
Lemma fireTimers_frame evs bus :
  listeners (fireTimers evs bus) = listeners bus
  ∧ messageHistory (fireTimers evs bus) ⊆ messageHistory bus.
Proof.
  unfold fireTimers. revert bus.
  induction evs as [|ev evs IH]; intros bus; simpl; [done|].
  destruct (IH (fireTimer ev.1 ev.2 bus)) as [-> Hsub].
  unfold fireTimer in *. case_decide; simpl in *; [|done].
  split; [done|]. intros k Hk. apply Hsub in Hk.
  by apply elem_of_difference in Hk as [Hk _].
Qed.

(** One pass of the two loops calls [h] once for each registration of [h]
    that the message reaches. *)
Lemma dispatch_registrations bus type (d : Data) h :
  listeners_ok bus → invocations h (dispatch bus type d) = registrations bus type h.
Proof.
  intros Hok. rewrite invocations_dispatch. unfold registrations.
  f_equal; case_decide; auto using count_NoDup_in, count_not_in, listenersOf_NoDup.
Qed.

Lemma registrations_once bus type h :
  subscribedOnce bus type h ↔ registrations bus type h = 1%nat.
Proof.
  unfold subscribedOnce, registrations.
  destruct (decide (h ∈ listenersOf bus type)), (decide (h ∈ listenersOf bus "*"));
    split; intros Hx; try done; try tauto; try lia.
Qed.

(** C1, as the code has it. Delivery is deduplicated on the pair (type,
    timestamp), and what is delivered once is the message, not the handler:
    a delivered message invokes a handler once for each registration of that
    handler it reaches, the one under the type and the one under ['*'].
    Take a bus in any state it can reach, any handler [h], and two messages
    of the same non-empty type, neither of them a repeat of something the bus
    still remembers, the second handled before the window opened by the first
    has run out (timer callbacks may run in between).  If the timestamps are
    equal, only the first message is dispatched: [h] is invoked once per
    registration in total.  If they differ, both are dispatched: [h] is
    invoked once per registration for each message.  The number of
    registrations is 1, and the handler invoked exactly once, precisely when
    [h] is registered under the type or under ['*'] but not under both. *)
Theorem handleMessage_dedup (s : EventBus) (type : string) (ts1 ts2 : Z)
    (d1 d2 : Data) (t1 t2 : Z) (mid : list (Z * (Z * string))) (h : Handler) :
  Reachable (Data:=Data) s →
  type ≠ "" →
  messageKey type ts1 ∉ messageHistory s →
  messageKey type ts2 ∉ messageHistory s →
  t2 < t1 + deduplicationWindow s →
  Forall (λ ev : Z * (Z * string), ev.1 ≤ t2) mid →
  let first :=
    handleMessage t1 (Some {| mtype := Some type; mdata := d1; mtimestamp := ts1 |}) s in
  let second :=
    handleMessage t2 (Some {| mtype := Some type; mdata := d2; mtimestamp := ts2 |})
                  (fireTimers mid first.1) in
  (ts1 = ts2 →
     invocations h first.2 = registrations s type h
     ∧ invocations h second.2 = 0%nat
     ∧ second.2 = [])
  ∧ (ts1 ≠ ts2 →
     invocations h first.2 = registrations s type h
     ∧ invocations h second.2 = registrations s type h)
  ∧ (registrations s type h = 1%nat ↔ subscribedOnce s type h)
  ∧ (registrations s type h = 2%nat
     ↔ h ∈ listenersOf s type ∧ h ∈ listenersOf s "*").
Proof.
  intros Hreach Hty Hk1 Hk2 Hwin Hmid first second.
  destruct (Reachable_ok s Hreach) as [Hlok [Hnd Htin]].
  subst first second. rewrite (handleMessage_fresh t1 type d1 ts1 s Hty Hk1).
  cbn [fst snd].
  set (s1 := {| listeners := listeners s;
                messageHistory := {[ messageKey type ts1 ]} ∪ messageHistory s;
                timers := timers s ++ [(t1 + deduplicationWindow s, messageKey type ts1)];
                deduplicationWindow := deduplicationWindow s |}).
  assert (Hfirst : invocations h (dispatch s type d1) = registrations s type h)
    by by apply dispatch_registrations.
  destruct (fireTimers_frame mid s1) as [Hl Hh].
  split; [|split; [|split]].
  - intros <-. split; [done|].
    rewrite handleMessage_duplicate; [done|].
    apply (fireTimers_keeps _ t2); [done|set_solver|].
    intros tm Htm Hkey. subst s1. simpl in Htm.
    apply elem_of_app in Htm as [Htm|Htm].
    + exfalso. apply Hk1. rewrite <- Hkey. by apply Htin.
    + apply list_elem_of_singleton in Htm. subst tm. simpl. lia.
  - intros Hne. split; [done|].
    rewrite handleMessage_fresh; [|done|].
    + cbn [snd]. rewrite invocations_dispatch. unfold listenersOf. rewrite Hl.
      subst s1. cbn [listeners].
      fold (listenersOf s type). fold (listenersOf s "*").
      rewrite <- invocations_dispatch with (d := d2).
      by apply dispatch_registrations.
    + intros Hin. apply Hh in Hin. subst s1. simpl in Hin.
      apply elem_of_union in Hin as [Hin|Hin]; [|done].
      apply elem_of_singleton in Hin. apply messageKey_inj in Hin. by subst.
  - symmetry. apply registrations_once.
  - unfold registrations.
    destruct (decide (h ∈ listenersOf s type)), (decide (h ∈ listenersOf s "*"));
      split; intros Hx; try done; try lia; tauto.
Qed.

End BusDedup.

(** A bus with handler 7 on ['beat'] that has just accepted a ['theme:update']
    whose cleanup is due at 1000.  A kick is handled at 1000, the cleanup of
    the earlier message runs at 1020, and a second kick is handled at 1040:
    with the timestamp of the first it is dropped, with another timestamp it
    is delivered. *)
Lemma handleMessage_dedup_witness :
  let s := (Bus.handleMessage 900
              (Some {| Bus.mtype := Some "theme:update"; Bus.mdata := "t";
                       Bus.mtimestamp := 899 |})
              (Bus.on ["beat"] 7%nat Bus.new)).1 in
  let first :=
    Bus.handleMessage 1000
      (Some {| Bus.mtype := Some "beat"; Bus.mdata := "kick"; Bus.mtimestamp := 990 |}) s in
  let cleaned := Bus.fireTimers [(1020, (1000, "theme:update-899"))] first.1 in
  let same :=
    Bus.handleMessage 1040
      (Some {| Bus.mtype := Some "beat"; Bus.mdata := "kick"; Bus.mtimestamp := 990 |})
      cleaned in
  let other :=
    Bus.handleMessage 1040
      (Some {| Bus.mtype := Some "beat"; Bus.mdata := "kick"; Bus.mtimestamp := 991 |})
      cleaned in
  (1000, "theme:update-899") ∈ Bus.timers first.1
  ∧ Bus.timers cleaned = [(1100, "beat-990")]
  ∧ Bus.invocations 7%nat first.2 = 1%nat
  ∧ Bus.invocations 7%nat same.2 = 0%nat
  ∧ Bus.invocations 7%nat other.2 = 1%nat.
Proof.
  intros s first cleaned same other.
  assert (Hreach : Bus.Reachable (Data:=string) s)
    by apply Bus.R_handle, Bus.R_on, Bus.R_new.
  assert (Hk0 : Bus.messageKey "beat" 990 ∉ Bus.messageHistory s).
  { vm_compute. intros H. discriminate H. }
  assert (Hk1 : Bus.messageKey "beat" 991 ∉ Bus.messageHistory s).
  { vm_compute. intros H. discriminate H. }
  assert (Hmid : Forall (λ ev : Z * (Z * string), ev.1 ≤ 1040)
                   [(1020, (1000, "theme:update-899"))])
    by (repeat constructor; simpl; lia).
  pose proof (handleMessage_dedup s "beat" 990 990 "kick" "kick" 1000 1040
                [(1020, (1000, "theme:update-899"))] 7%nat
                Hreach ltac:(discriminate) Hk0 Hk0 eq_refl Hmid) as Hsame.
  pose proof (handleMessage_dedup s "beat" 990 991 "kick" "kick" 1000 1040
                [(1020, (1000, "theme:update-899"))] 7%nat
                Hreach ltac:(discriminate) Hk0 Hk1 eq_refl Hmid) as Hother.
  cbv zeta in Hsame, Hother.
  destruct Hsame as (Hsame & _ & _ & _). destruct (Hsame eq_refl) as (H1 & H2 & _).
  destruct Hother as (_ & Hother & _ & _).
  destruct (Hother ltac:(discriminate)) as (_ & H3).
  split; [vm_compute; apply list_elem_of_here|]. split; [reflexivity|].
  split; [exact H1|]. split; [exact H2|exact H3].
Defined.

(** C1 as stated fails: handler 6 is subscribed to ['beat'] and, like any
    logger, to ['*'].  Two copies of one message within the window invoke it
    twice in total, not once, and two messages with differing timestamps
    invoke it twice each. *)
Lemma handleMessage_twice_counterexample :
  let s := Bus.on ["beat"; "*"] 6%nat Bus.new in
  let first :=
    Bus.handleMessage 1000
      (Some {| Bus.mtype := Some "beat"; Bus.mdata := "kick"; Bus.mtimestamp := 990 |}) s in
  let same :=
    Bus.handleMessage 1040
      (Some {| Bus.mtype := Some "beat"; Bus.mdata := "kick"; Bus.mtimestamp := 990 |})
      first.1 in
  let other :=
    Bus.handleMessage 1040
      (Some {| Bus.mtype := Some "beat"; Bus.mdata := "kick"; Bus.mtimestamp := 991 |})
      first.1 in
  6%nat ∈ Bus.listenersOf s "beat"
  ∧ (Bus.invocations 6%nat first.2 + Bus.invocations 6%nat same.2)%nat = 2%nat
  ∧ ¬ ((Bus.invocations 6%nat first.2 + Bus.invocations 6%nat same.2)%nat = 1%nat)
  ∧ Bus.invocations 6%nat other.2 = 2%nat
  ∧ ¬ (Bus.invocations 6%nat other.2 = 1%nat).
Proof.
  split; [vm_compute; apply list_elem_of_here|].
  split; [reflexivity|]. split; [vm_compute; discriminate|].
  split; [reflexivity|]. vm_compute; discriminate.
Qed.

Section BusRegistration.

Import Bus.
Context {Data : Type}.
Implicit Types (bus s : EventBus) (h cb : Handler) (type : string).

Lemma on1_fixed h bus type : h ∈ listenersOf bus type → on1 h bus type = bus.
Proof.
  unfold on1, listenersOf, set_add. intros Hin.
  destruct (listeners bus !! type) as [l|] eqn:E; simpl in *;
    [|by apply elem_of_nil in Hin].
  rewrite decide_True by done. rewrite insert_id by done. by destruct bus.
Qed.

Lemma listenersOf_on1 h bus type t :
  listenersOf (on1 h bus type) t
  = if decide (type = t) then set_add h (listenersOf bus type) else listenersOf bus t.
Proof.
  unfold listenersOf at 1. unfold on1. simpl. rewrite lookup_insert.
  by case_decide.
Qed.

Lemma elem_of_set_add h x (l : list Handler) : x ∈ set_add h l ↔ x = h ∨ x ∈ l.
Proof.
  unfold set_add. case_decide as E.
  - split; [auto|]. intros [->|]; done.
  - rewrite elem_of_app, list_elem_of_singleton. tauto.
Qed.

Lemma on_member types h bus t :
  h ∈ listenersOf (on types h bus) t ↔ t ∈ types ∨ h ∈ listenersOf bus t.
Proof.
  unfold on. revert bus. induction types as [|t0 types IH]; intros bus; simpl.
  - rewrite elem_of_nil. tauto.
  - rewrite IH, listenersOf_on1, elem_of_cons. case_decide as E.
    + subst t0. rewrite elem_of_set_add. tauto.
    + split; [tauto|]. intros [[->|?]|?]; tauto.
Qed.

Lemma on_fixed types h bus :
  (∀ t, t ∈ types → h ∈ listenersOf bus t) → on types h bus = bus.
Proof.
  unfold on. induction types as [|t0 types IH]; intros Hall; simpl; [done|].
  rewrite on1_fixed by (apply Hall, list_elem_of_here).
  apply IH. intros t Ht. by apply Hall, list_elem_of_further.
Qed.

(** Registering again what was just registered changes nothing, also for an
    array of types. *)
Lemma on_twice types h bus : on types h (on types h bus) = on types h bus.
Proof. apply on_fixed. intros t Ht. apply on_member. by left. Qed.

Lemma on_iterated type h bus (n : nat) :
  (0 < n)%nat → Nat.iter n (on [type] h) bus = on [type] h bus.
Proof.
  induction n as [|n IH]; intros Hn; [lia|].
  destruct n as [|n]; [reflexivity|].
  change (Nat.iter (S (S n)) (on [type] h) bus)
    with (on [type] h (Nat.iter (S n) (on [type] h) bus)).
  rewrite IH by lia. apply on_twice.
Qed.

Lemma listenersOf_on_other type t h bus :
  type ≠ t → listenersOf (on [type] h bus) t = listenersOf bus t.
Proof. intros Hne. unfold on. simpl. rewrite listenersOf_on1. by rewrite decide_False. Qed.

(** C10. Registering the same handler for the same type any number of times
    is the same as registering it once: the bus ends in the same state, the
    listener set of the type holds the handler exactly once, and a message
    of that type that the bus delivers invokes the handler exactly once (the
    handler holding no wildcard registration besides). *)
Theorem on_idempotent (s : EventBus) (type : string) (h : Handler) (n : nat)
    (now ts : Z) (d : Data) :
  Reachable (Data:=Data) s →
  (0 < n)%nat →
  type ≠ "" → type ≠ "*" →
  h ∉ listenersOf s "*" →
  messageKey type ts ∉ messageHistory s →
  let many := Nat.iter n (on [type] h) s in
  many = on [type] h s
  ∧ length (filter (λ x, x = h) (listenersOf many type)) = 1%nat
  ∧ invocations h
      (handleMessage now
         (Some {| mtype := Some type; mdata := d; mtimestamp := ts |}) many).2 = 1%nat.
Proof.
  intros Hreach Hn Hty Hstar Hwild Hkey many.
  assert (Hmany : many = on [type] h s) by by apply on_iterated.
  assert (Hok : listeners_ok many).
  { rewrite Hmany. apply on_listeners_ok. by apply (Reachable_ok (Data:=Data)). }
  assert (Hin : h ∈ listenersOf many type).
  { rewrite Hmany. apply on_member. left. apply list_elem_of_here. }
  split; [done|]. split.
  - apply count_NoDup_in; [by apply listenersOf_NoDup|done].
  - rewrite handleMessage_fresh; [|done|].
    + cbn [snd]. apply dispatch_once; [done|]. left. split; [done|].
      rewrite Hmany, listenersOf_on_other; done.
    + rewrite Hmany. by destruct (on_frame [type] h s) as (-> & _).
Qed.

End BusRegistration.

(** Handler 3 registered three times for ['theme:update'] on a fresh bus. *)
Lemma on_idempotent_witness :
  let many := Nat.iter 3 (Bus.on ["theme:update"] 3%nat) Bus.new in
  many = Bus.on ["theme:update"] 3%nat Bus.new
  ∧ length (filter (λ x, x = 3%nat) (Bus.listenersOf many "theme:update")) = 1%nat
  ∧ Bus.invocations 3%nat
      (Bus.handleMessage 50
         (Some {| Bus.mtype := Some "theme:update"; Bus.mdata := "t";
                  Bus.mtimestamp := 49 |}) many).2 = 1%nat.
Proof.
  apply (on_idempotent Bus.new "theme:update" 3%nat 3 50 49 "t").
  - apply Bus.R_new.
  - lia.
  - discriminate.
  - discriminate.
  - vm_compute. apply not_elem_of_nil.
  - apply not_elem_of_empty.
Defined.

(** ** Beat engine *)

Section BeatFacts.

Import Beat.
Context {Features : Type}.

Lemma validated_outOfRange (arg : JsValue) :
  outOfRange arg → validated arg = Number (Finite 120).
Proof.
  unfold validated. destruct arg as [| |[q| | | |]]; simpl; try done.
  intros [H|[H|H]].
  - apply Qeq_bool_iff in H. by rewrite H.
  - apply Qle_bool_iff in H. rewrite H. by rewrite orb_true_r.
  - destruct (Qle_bool q 300) eqn:E.
    + apply Qle_bool_iff in E. exfalso. by apply (Qlt_not_le _ _ H).
    + simpl. by rewrite !orb_true_r.
Qed.

(** An argument that none of the three tests of [setBPM] catches is a finite
    number in (0, 300], and the validation hands it on as it is. *)
Lemma validated_inRange (arg : JsValue) :
  falsy arg || nonPositive arg || above300 arg = false →
  ∃ q, arg = Number (Finite q) ∧ validated arg = Number (Finite q)
       ∧ Qeq_bool q 0 = false ∧ (0 < q)%Q ∧ (q <= 300)%Q.
Proof.
  intros Hg. unfold validated. rewrite Hg.
  destruct arg as [| |[q| | | |]]; simpl in Hg; try discriminate Hg.
  apply orb_false_iff in Hg as [Hg H300]. apply orb_false_iff in Hg as [H0 Hle].
  exists q. repeat split; try done.
  - apply Qnot_le_lt. intros Hc. apply Qle_bool_iff in Hc. congruence.
  - apply Qle_bool_iff. by destruct (Qle_bool q 300).
Qed.

(** The validated tempo is never falsy, so [startBeat] never stops at its
    first guard after [setBPM]. *)
Lemma validated_truthy (arg : JsValue) : falsy (validated arg) = false.
Proof.
  destruct (falsy arg || nonPositive arg || above300 arg) eqn:Hg.
  - unfold validated. by rewrite Hg.
  - destruct (validated_inRange arg Hg) as (q & _ & -> & Hq & _). exact Hq.
Qed.

(** What [setBPM] does on an engine that has its bus. *)
Lemma setBPM_with_bus (now : Z) (arg : JsValue) (features : Features)
    (s : System Features) :
  eventBus (engine s) = true →
  setBPM now arg features s =
  ({| engine := {| eventBus := true; bpm := validated arg;
                   beatInterval := Number (perBeat (validated arg));
                   beatTimerId := Some (nextTimerId s);
                   beatCount := 1;
                   audioFeatures := Some features;
                   isRunning := true |};
      intervals :=
        match beatTimerId (engine s) with
        | Some id => filter (λ t, t.1 ≠ id) (intervals s)
        | None => intervals s
        end ++ [(nextTimerId s, Number (perBeat (validated arg)))];
      nextTimerId := Pos.succ (nextTimerId s);
      emitted := emitted s ++
        [{| tick_beatCount := 1; tick_bpm := validated arg;
            tick_beatInterval := Number (perBeat (validated arg));
            tick_audioFeatures := Some features;
            tick_timestamp := now |}] |}, Normal).
Proof.
  intros Hbus. unfold setBPM, startBeat, stopBeat, noBpm, emitBeat. simpl.
  rewrite validated_truthy. simpl. rewrite Hbus. reflexivity.
Qed.

(** What [setBPM] does after [destroy]: the [TypeError] of [emitBeat]. *)
Lemma setBPM_without_bus (now : Z) (arg : JsValue) (features : Features)
    (s : System Features) :
  eventBus (engine s) = false →
  (setBPM now arg features s).2 = Thrown
  ∧ bpm (engine (setBPM now arg features s).1) = validated arg
  ∧ beatInterval (engine (setBPM now arg features s).1)
    = Number (perBeat (validated arg)).
Proof.
  intros Hbus. unfold setBPM, startBeat, stopBeat, noBpm, emitBeat. simpl.
  rewrite validated_truthy. simpl. rewrite Hbus. done.
Qed.

(** C5. A falsy, non-positive or greater-than-300 argument (0 and 400 among
    them, and [undefined], [null], [NaN] and the infinities) leaves the
    engine with an effective BPM of 120 and a beat interval of exactly
    500 ms, and the call is not rejected: on an engine that has its event
    bus it returns normally. *)
Theorem setBPM_coerces_invalid (now : Z) (arg : JsValue)
    (features : Features) (s : System Features) :
  outOfRange arg →
  let after := setBPM now arg features s in
  bpm (engine after.1) = Number (Finite 120)
  ∧ (∃ ms, beatInterval (engine after.1) = Number (Finite ms) ∧ (ms == 500)%Q)
  ∧ (eventBus (engine s) = true → after.2 = Normal).
Proof.
  intros Hout after. subst after.
  destruct (eventBus (engine s)) eqn:Hbus.
  - rewrite setBPM_with_bus by done. cbn [fst snd engine bpm beatInterval].
    rewrite (validated_outOfRange arg Hout).
    split; [done|]. split; [|done]. eexists. split; [done|]. reflexivity.
  - destruct (setBPM_without_bus now arg features s Hbus) as (_ & -> & ->).
    rewrite (validated_outOfRange arg Hout).
    split; [done|]. split; [|done]. eexists. split; [done|]. reflexivity.
Qed.

(** C6, as the code has it. Every call to [setBPM] on an engine that has its
    event bus returns with the engine running, [beatCount] equal to 1, a
    fresh interval timer at the beat interval, and exactly one new tick
    emitted, whose [beatCount] field is 1: the counter is reset to 0 and
    then incremented before the tick is built. *)
Theorem setBPM_restarts_at_one (now : Z) (arg : JsValue)
    (features : Features) (s : System Features) :
  eventBus (engine s) = true →
  let after := setBPM now arg features s in
  after.2 = Normal
  ∧ isRunning (engine after.1) = true
  ∧ beatCount (engine after.1) = 1
  ∧ beatTimerId (engine after.1) = Some (nextTimerId s)
  ∧ (nextTimerId s, beatInterval (engine after.1)) ∈ intervals after.1
  ∧ emitted after.1 = emitted s ++
      [{| tick_beatCount := 1; tick_bpm := validated arg;
          tick_beatInterval := Number (perBeat (validated arg));
          tick_audioFeatures := Some features;
          tick_timestamp := now |}].
Proof.
  intros Hbus after. subst after. rewrite setBPM_with_bus by done.
  cbn [fst snd engine isRunning beatCount beatTimerId beatInterval intervals emitted].
  repeat split; try done.
  apply elem_of_app. right. apply list_elem_of_here.
Qed.

End BeatFacts.

(** [setBPM(0)] on a fresh engine with a bus. *)
Lemma setBPM_coerces_invalid_witness :
  let after := Beat.setBPM 0 (Beat.Number (Beat.Finite 0)) tt (Beat.new true) in
  Beat.bpm (Beat.engine after.1) = Beat.Number (Beat.Finite 120)
  ∧ (∃ ms, Beat.beatInterval (Beat.engine after.1) = Beat.Number (Beat.Finite ms)
           ∧ (ms == 500)%Q)
  ∧ (Beat.eventBus (Beat.engine (Beat.new (Features:=unit) true)) = true
     → after.2 = Beat.Normal).
Proof.
  apply (setBPM_coerces_invalid 0 (Beat.Number (Beat.Finite 0)) tt (Beat.new true)).
  left. reflexivity.
Defined.

(** [setBPM(400)] is coerced in the same way. *)
Example setBPM_400 :
  let after := Beat.setBPM 0 (Beat.Number (Beat.Finite 400)) tt (Beat.new true) in
  Beat.bpm (Beat.engine after.1) = Beat.Number (Beat.Finite 120)
  ∧ Beat.beatInterval (Beat.engine after.1) = Beat.Number (Beat.Finite (60000 / 120)).
Proof. split; reflexivity. Qed.

(** So are [setBPM()], [setBPM(null)], [setBPM(NaN)], [setBPM(-0)] and the two
    infinities: each of them is caught by one of the three tests. *)
Example setBPM_not_a_tempo :
  Forall (λ arg,
            Beat.falsy arg || Beat.nonPositive arg || Beat.above300 arg = true
            ∧ Beat.bpm (Beat.engine (Beat.setBPM 0 arg tt (Beat.new true)).1)
              = Beat.Number (Beat.Finite 120))
    [ Beat.Undefined; Beat.Null; Beat.Number Beat.NaN; Beat.Number Beat.NegZero;
      Beat.Number Beat.PosInfinity; Beat.Number Beat.NegInfinity ].
Proof. repeat constructor. Qed.

(** [setBPM(140)] on a fresh engine with a bus. *)
Lemma setBPM_restarts_at_one_witness :
  let after := Beat.setBPM 7 (Beat.Number (Beat.Finite 140)) tt (Beat.new true) in
  after.2 = Beat.Normal
  ∧ Beat.isRunning (Beat.engine after.1) = true
  ∧ Beat.beatCount (Beat.engine after.1) = 1
  ∧ Beat.beatTimerId (Beat.engine after.1) = Some 1%positive
  ∧ (1%positive, Beat.beatInterval (Beat.engine after.1)) ∈ Beat.intervals after.1
  ∧ Beat.emitted after.1 =
      [{| Beat.tick_beatCount := 1;
          Beat.tick_bpm := Beat.validated (Beat.Number (Beat.Finite 140));
          Beat.tick_beatInterval :=
            Beat.Number (Beat.perBeat (Beat.validated (Beat.Number (Beat.Finite 140))));
          Beat.tick_audioFeatures := Some tt;
          Beat.tick_timestamp := 7 |}].
Proof.
  apply (setBPM_restarts_at_one 7 (Beat.Number (Beat.Finite 140)) tt (Beat.new true)).
  reflexivity.
Defined.

(** C6 as stated fails: after [setBPM(140)] on a fresh engine the counter is
    not 0 and the one tick emitted does not carry 0. *)
Lemma setBPM_tick_zero_counterexample :
  let after := Beat.setBPM 7 (Beat.Number (Beat.Finite 140)) tt (Beat.new true) in
  ¬ (Beat.beatCount (Beat.engine after.1) = 0)
  ∧ ¬ (∃ tick, tick ∈ Beat.emitted after.1 ∧ Beat.tick_beatCount tick = 0).
Proof.
  split.
  - vm_compute. discriminate.
  - intros (tick & Hin & Hzero). vm_compute in Hin.
    apply list_elem_of_singleton in Hin. subst tick. vm_compute in Hzero. discriminate.
Qed.

(** ** Colour extractor *)

Section ExtractorFacts.

Import Extractor.
Implicit Types (colors centroids : list Color) (clusters : list (list Color)).

(** The scan of [closest] ends on an index inside a non-empty centroid list. *)
Lemma closest_in_range color centroids :
  centroids ≠ [] → (closest color centroids < length centroids)%nat.
Proof.
  unfold closest.
  set (step := λ (acc : option Z * nat * nat) centroid, _).
  assert (Hgen : ∀ l m c i,
            ((m = None ∧ l ≠ []) ∨ (c < i)%nat) →
            ((foldl step (m, c, i) l).1.2 < i + length l)%nat).
  { induction l as [|x l IH]; intros m c i Hinv.
    - simpl. destruct Hinv as [[_ ?]|?]; [done|lia].
    - simpl. replace (i + S (length l))%nat with (S i + length l)%nat by lia.
      destruct m as [m|]; simpl.
      + destruct Hinv as [[? _]|Hlt]; [done|].
        destruct (sqDistance color x <? m); apply IH; right; lia.
      + apply IH. right. lia. }
  intros Hne. apply (Hgen centroids None 0%nat 0%nat). by left.
Qed.

Lemma assign_total colors centroids clusters :
  centroids ≠ [] → length clusters = length centroids →
  ∃ out, assign colors centroids clusters = Some out ∧ length out = length clusters.
Proof.
  intros Hne. revert clusters.
  induction colors as [|color rest IH]; intros clusters Hlen; simpl; [eauto|].
  pose proof (closest_in_range color centroids Hne) as Hlt.
  destruct (lookup_lt_is_Some_2 clusters (closest color centroids)) as [cl ->]; [lia|].
  destruct (IH (<[closest color centroids:=cl ++ [color]]> clusters)) as (out & -> & Hout).
  - by rewrite length_insert.
  - exists out. split; [done|]. by rewrite Hout, length_insert.
Qed.

Lemma recentre_total centroids clusters :
  centroids ≠ [] →
  ∃ out, mapM (recentre centroids) clusters = Some out ∧ length out = length clusters.
Proof.
  intros Hne.
  destruct (mapM_is_Some_2 (recentre centroids) clusters) as [out Hout].
  - apply Forall_forall. intros cluster _. simpl. unfold recentre.
    destruct cluster; [|done]. by destruct centroids.
  - exists out. split; [done|]. symmetry. by eapply length_mapM.
Qed.

Lemma iterate_total (n : nat) colors centroids (k : Z) :
  centroids ≠ [] → length centroids = Z.to_nat k →
  ∃ out, iterate n colors centroids k = Some out ∧ length out = Z.to_nat k.
Proof.
  revert centroids. induction n as [|n IH]; intros centroids Hne Hlen; simpl; [eauto|].
  destruct (assign_total colors centroids (replicate (Z.to_nat k) []) Hne)
    as (clusters & -> & Hcl); [by rewrite length_replicate|].
  rewrite length_replicate in Hcl.
  destruct (recentre_total centroids clusters Hne) as (new & -> & Hnew).
  destruct (converged new centroids); [exists new; split; [done|lia]|].
  apply IH; [|lia]. intros ->. simpl in Hnew. destruct centroids; [done|].
  simpl in Hlen. lia.
Qed.

Lemma seeds_total colors (k : Z) :
  1 ≤ k < Z.of_nat (length colors) →
  ∃ out, seeds colors k = Some out ∧ length out = Z.to_nat k.
Proof.
  intros Hk. unfold seeds.
  destruct (mapM_is_Some_2
              (λ i : nat, colors !! Z.to_nat (Z.of_nat i * (Z.of_nat (length colors) / k)))
              (seq 0 (Z.to_nat k))) as [out Hout].
  - apply Forall_forall. intros i Hi. simpl.
    apply elem_of_seq in Hi. apply lookup_lt_is_Some.
    assert (Hle : k * (Z.of_nat (length colors) / k) ≤ Z.of_nat (length colors))
      by (apply Z.mul_div_le; lia).
    assert (Hq : 1 ≤ Z.of_nat (length colors) / k)
      by (apply Z.div_le_lower_bound; lia).
    nia.
  - exists out. split; [done|].
    apply length_mapM in Hout. by rewrite length_seq in Hout.
Qed.

(** For a positive [k] the clustering never raises and never returns an
    empty list on a non-empty input. *)
Lemma kMeansClustering_total colors (k : Z) (n : nat) :
  colors ≠ [] → 1 ≤ k →
  ∃ out, kMeansClustering colors k n = Some out ∧ out ≠ [].
Proof.
  intros Hne Hk. unfold kMeansClustering.
  destruct (Z.leb_spec (Z.of_nat (length colors)) k) as [Hle|Hlt]; [eauto|].
  destruct (seeds_total colors k) as (centroids & -> & Hlen); [lia|].
  destruct (iterate_total n colors centroids k) as (out & -> & Hout); [|done|].
  - intros ->. simpl in Hlen. lia.
  - exists out. split; [done|]. intros ->. simpl in Hout. lia.
Qed.

(** For [k <= 0] the clustering of a non-empty list raises: there is no
    cluster to push the first colour to. *)
Lemma kMeansClustering_throws colors (k : Z) (n : nat) :
  colors ≠ [] → k ≤ 0 → kMeansClustering colors k (S n) = None.
Proof.
  intros Hne Hk. unfold kMeansClustering.
  destruct (Z.leb_spec (Z.of_nat (length colors)) k) as [Hle|Hlt].
  - destruct colors; [done|]. simpl in Hle. lia.
  - unfold seeds. replace (Z.to_nat k) with 0%nat by lia. simpl.
    replace (Z.to_nat k) with 0%nat by lia. by destruct colors.
Qed.

Lemma sortByVibrancy_nonempty colors : colors ≠ [] → sortByVibrancy colors ≠ [].
Proof.
  destruct colors as [|c colors]; [done|]. intros _. unfold sortByVibrancy. simpl.
  destruct (foldr insertByVibrancy [] colors) as [|y rest]; simpl; [done|].
  by destruct (Qle_bool _ _).
Qed.

(** C4, as the code has it. A failed image load and an image with no
    vibrant pixel both resolve to the fixed fallback palette, whatever the
    color count.  A processing exception does not: a canvas call that raises
    rejects the promise, and so does the clustering of at least one vibrant
    pixel for a color count of 0 or less.  With a color count of at least 1
    and readable pixels the promise always resolves. *)
Theorem extractColors_settles :
  (∀ colorCount, extractColors LoadError colorCount = Resolved fallback)
  ∧ (∀ pixels colorCount,
       collect pixels = [] →
       extractColors (Loaded (Some pixels)) colorCount = Resolved fallback)
  ∧ (∀ colorCount, extractColors (Loaded None) colorCount = Rejected)
  ∧ (∀ pixels colorCount,
       collect pixels ≠ [] → colorCount ≤ 0 →
       extractColors (Loaded (Some pixels)) colorCount = Rejected)
  ∧ (∀ pixels colorCount,
       1 ≤ colorCount →
       ∃ p, extractColors (Loaded (Some pixels)) colorCount = Resolved p).
Proof.
  split; [done|]. split; [|split; [done|split]].
  - intros pixels k Hnone. simpl. by rewrite Hnone.
  - intros pixels k Hsome Hk. simpl.
    destruct (collect pixels) as [|c cs] eqn:E; [done|].
    rewrite kMeansClustering_throws; [done|done|]. lia.
  - intros pixels k Hk. simpl.
    destruct (collect pixels) as [|c cs] eqn:E; [eauto|].
    destruct (kMeansClustering_total (c :: cs)
                (Z.min k (Z.of_nat (length (c :: cs)))) 10) as (out & -> & Hout);
      [done|simpl; lia|].
    pose proof (sortByVibrancy_nonempty out Hout) as Hsorted.
    destruct (sortByVibrancy out); [done|eauto].
Qed.

(** C7, as the code has it. The clustering step returns its input list
    unchanged exactly under its own guard: when [k] is at least the length
    of the list, duplicates counted. *)
Theorem kMeansClustering_short_input colors (k : Z) (maxIterations : nat) :
  Z.of_nat (length colors) ≤ k →
  kMeansClustering colors k maxIterations = Some colors.
Proof.
  intros Hle. unfold kMeansClustering.
  by destruct (Z.leb_spec (Z.of_nat (length colors)) k); [|lia].
Qed.

End ExtractorFacts.

(** A fully transparent pixel leaves nothing to cluster. *)
Lemma extractColors_settles_witness :
  Extractor.extractColors
    (Extractor.Loaded (Some [ {| Extractor.pr := 200; Extractor.pg := 30;
                                 Extractor.pb := 30; Extractor.pa := 0 |} ])) 5
  = Extractor.Resolved Extractor.fallback.
Proof.
  apply (proj1 (proj2 extractColors_settles)). reflexivity.
Defined.

(** C4 as stated fails: one opaque red pixel and a color count of 0 make the
    clustering raise, and the promise is rejected. *)
Lemma extractColors_rejects_counterexample :
  Extractor.extractColors
    (Extractor.Loaded (Some [ {| Extractor.pr := 255; Extractor.pg := 0;
                                 Extractor.pb := 0; Extractor.pa := 255 |} ])) 0
  = Extractor.Rejected
  ∧ Extractor.extractColors
      (Extractor.Loaded (Some [ {| Extractor.pr := 255; Extractor.pg := 0;
                                   Extractor.pb := 0; Extractor.pa := 255 |} ])) 0
    ≠ Extractor.Resolved Extractor.fallback.
Proof. split; [reflexivity|discriminate]. Qed.

(** Two colours and [k = 2]. *)
Lemma kMeansClustering_short_input_witness :
  Extractor.kMeansClustering
    [ Theme.rgb 255 0 0; Theme.rgb 0 255 0 ] 2 10
  = Some [ Theme.rgb 255 0 0; Theme.rgb 0 255 0 ].
Proof.
  apply (kMeansClustering_short_input [ Theme.rgb 255 0 0; Theme.rgb 0 255 0 ] 2 10).
  simpl. lia.
Defined.

(** C7 as stated fails: three reds, a green and a blue hold three distinct
    colours, yet for [k = 3] the result is not the input and holds the
    mean of green and blue, which is none of the input colours. *)
Lemma kMeansClustering_distinct_counterexample :
  let colors := [ Theme.rgb 255 0 0; Theme.rgb 255 0 0; Theme.rgb 255 0 0;
                  Theme.rgb 0 255 0; Theme.rgb 0 0 255 ] in
  Z.of_nat (length (remove_dups colors)) ≤ 3
  ∧ Extractor.kMeansClustering colors 3 10
    = Some [ Theme.rgb 0 128 128; Theme.rgb 255 0 0; Theme.rgb 0 128 128 ]
  ∧ Theme.rgb 0 128 128 ∉ colors.
Proof.
  split; [vm_compute; discriminate|]. split; [reflexivity|].
  intros Hin. repeat (apply elem_of_cons in Hin as [Hin|Hin]; [discriminate|]).
  by apply elem_of_nil in Hin.
Qed.

(** ** Theme engine *)

Section ThemeFacts.

Import Extractor Theme.
Variable unicodeLowerCase : string → string.
Variable loadImage : string → ImageLoad.




(** The table is written only through an active override. *)
Lemma table_kept_without_override (tickTime themeTime : Z)
    (trackData : option TrackData) (w : World) :
  activeOverride (this w) = None →
  table (generateThemeFromTrack unicodeLowerCase loadImage tickTime themeTime
           trackData w).1 = table w.
Proof.
  intros Hnone. unfold generateThemeFromTrack.
  destruct trackData as [td|]; [|done]. destruct (track td); [|done].
  destruct (genreEntry _ _) as [[slot genreTheme]|]; [|done]. cbv zeta.
  unfold overrideBlock. rewrite Hnone. by destruct (beatBlock _ _ _ _).2.
Qed.

(** The features of a produced theme are those of [audioFeaturesOf]. *)
Lemma generated_audioFeatures (tickTime themeTime : Z) (td : TrackData)
    (w w' : World) (theme : ThemeRecord) :
  generateThemeFromTrack unicodeLowerCase loadImage tickTime themeTime (Some td) w
    = (w', Resolved (Some theme)) →
  t_audioFeatures theme = audioFeaturesOf td.
Proof.
  unfold generateThemeFromTrack. destruct (track td); [|done].
  destruct (genreEntry _ _) as [[slot genreTheme]|]; [|done]. cbv zeta.
  destruct (beatBlock _ _ _ _).2; [|done]. by intros [= _ <-].
Qed.

(** A supplied feature that is not zero is passed on; an absent one, and a
    supplied zero, become the default. *)
Lemma orDefault_cases (x : option Q) (d : Q) :
  match x with
  | Some q => (¬ (q == 0)%Q → orDefault x d = q) ∧ ((q == 0)%Q → orDefault x d = d)
  | None => orDefault x d = d
  end.
Proof.
  destruct x as [q|]; [|done]. simpl. split; intros H.
  - destruct (Qeq_bool q 0) eqn:E; [|done]. by apply Qeq_bool_iff in E.
  - apply Qeq_bool_iff in H. by rewrite H.
Qed.

(** What [updateFromHomeAssistant] returns, case by case; it never touches
    the current theme. *)
Lemma updateFromHomeAssistant_cases (lightState : option LightState) (e : ThemeEngine) :
  let after := updateFromHomeAssistant lightState e in
  currentTheme after.1 = currentTheme e
  ∧ match lightState ≫= rgb_color with
    | Some (x, y, z) =>
      haLightColors after.1 = Some (rgb x y z)
      ∧ after.2 = ReturnsBool (bool_decide (is_Some (currentTheme e)))
    | None => haLightColors after.1 = None ∧ after.2 = ReturnsUndefined
    end.
Proof.
  unfold updateFromHomeAssistant.
  destruct (lightState ≫= rgb_color) as [[[x y] z]|]; simpl; [|done].
  split; [done|]. split; [done|]. f_equal.
  destruct (currentTheme e); symmetry.
  - by apply bool_decide_eq_true.
  - apply bool_decide_eq_false. by intros [? ?].
Qed.

End ThemeFacts.


(** C3 fails on the code. With sync enabled, the override (10,20,30) stored
    and a track without album art, [colors] is the table entry's own
    [baseColors] object, and the assignment to [colors.primary] overwrites
    the primary colour of the ['default'] entry of [GENRE_THEMES]. *)
Theorem genre_table_overwritten :
  let after := (Theme.generateThemeFromTrack Runs.unmapped Runs.offline 1 2
                  (Some Runs.plain) Runs.synced).1 in
  Theme.table Runs.synced = Theme.GENRE_THEMES
  ∧ Theme.table after ≠ Theme.GENRE_THEMES
  ∧ (Theme.primary ∘ Theme.baseColors) <$> Theme.GENRE_THEMES !! "default"
    = Some (Theme.rgb 139 92 246)
  ∧ (Theme.primary ∘ Theme.baseColors) <$> Theme.table after !! "default"
    = Some (Theme.rgb 10 20 30).
Proof.
  split; [reflexivity|]. split; [|split; vm_compute; reflexivity].
  intros Heq.
  apply (f_equal (λ t, (Theme.primary ∘ Theme.baseColors) <$> t !! "default")) in Heq.
  vm_compute in Heq. discriminate.
Qed.

(** The overwritten entry outlives the override: once sync is disabled, the
    next track without album art still gets (10,20,30) as its primary. *)
Example genre_default_stays_overwritten :
  let after := (Theme.generateThemeFromTrack Runs.unmapped Runs.offline 1 2
                  (Some Runs.plain) Runs.synced).1 in
  let unsynced := {| Theme.table := Theme.table after;
                     Theme.this := Theme.setSyncWithHomeAssistant false (Theme.this after) |} in
  ∃ theme,
    (Theme.generateThemeFromTrack Runs.unmapped Runs.offline 3 4 (Some Runs.plain)
       unsynced).2
      = Extractor.Resolved (Some theme)
    ∧ Theme.t_source theme = "spotify"
    ∧ Theme.c_primary (Theme.t_colors theme) = "rgb(10, 20, 30)".
Proof. eexists. split; [vm_compute; reflexivity|]. split; reflexivity. Qed.

(** C8 fails on the code. An energy of 0 supplied with the track is falsy in
    [energy || 0.5], so the theme carries 0.5. *)
Theorem zero_energy_defaulted :
  ∃ theme,
    (Theme.generateThemeFromTrack Runs.unmapped Runs.offline 1 2 (Some Runs.silent)
       (Theme.new true)).2 = Extractor.Resolved (Some theme)
    ∧ (Theme.features Runs.silent ≫= Theme.f_energy) = Some 0%Q
    ∧ Theme.energy (Theme.t_audioFeatures theme) = (1 # 2)%Q
    ∧ Theme.valence (Theme.t_audioFeatures theme) = (3 # 10)%Q
    ∧ Theme.t_intensityClass theme = "medium".
Proof. eexists. split; [vm_compute; reflexivity|]. repeat split. Qed.

(** C9 fails on the code. On an engine that holds a current theme, a light
    state without colour clears the override and returns [undefined], not a
    boolean. *)
Theorem clearing_returns_undefined :
  let e := Theme.this (Theme.generateThemeFromTrack Runs.unmapped Runs.offline 1 2
                         (Some Runs.plain) Runs.synced).1 in
  let after := Theme.updateFromHomeAssistant (Some {| Theme.rgb_color := None |}) e in
  is_Some (Theme.currentTheme e)
  ∧ Theme.haLightColors e = Some (Theme.rgb 10 20 30)
  ∧ Theme.haLightColors after.1 = None
  ∧ after.2 = Theme.ReturnsUndefined
  ∧ ∀ v, after.2 ≠ Theme.ReturnsBool v.
Proof.
  split; [vm_compute; eauto|]. split; [reflexivity|]. split; [reflexivity|].
  split; [reflexivity|]. intros v. vm_compute. discriminate.
Qed.

(** * Further properties *)

(** ** Event bus: registration, expiry, channel *)

Section BusMore.

Import Bus.
Context {Data : Type}.
Implicit Types (bus s : EventBus) (h cb : Handler) (type t : string).

Lemma set_add_idem h (l : list Handler) : set_add h (set_add h l) = set_add h l.
Proof.
  unfold set_add at 1. rewrite decide_True; [done|].
  apply elem_of_set_add. by left.
Qed.

Lemma elem_of_set_delete h x (l : list Handler) : x ∈ set_delete h l ↔ x ∈ l ∧ x ≠ h.
Proof. unfold set_delete. rewrite list_elem_of_filter. tauto. Qed.

Lemma set_delete_absent h (l : list Handler) : h ∉ l → set_delete h l = l.
Proof.
  unfold set_delete. induction l as [|x l IH]; intros Hn; [done|].
  apply not_elem_of_cons in Hn as [Hne Hn].
  rewrite filter_cons. case_decide as E; [by rewrite IH|congruence].
Qed.

Lemma set_delete_idem h (l : list Handler) : set_delete h (set_delete h l) = set_delete h l.
Proof. apply set_delete_absent. rewrite elem_of_set_delete. tauto. Qed.

Lemma set_delete_add h (l : list Handler) : set_delete h (set_add h l) = set_delete h l.
Proof.
  unfold set_add. case_decide; [done|]. unfold set_delete.
  rewrite filter_app, filter_cons. case_decide as E; [done|].
  by rewrite filter_nil, app_nil_r.
Qed.

Lemma listenersOf_off1 h bus type t :
  listenersOf (off1 h bus type) t
  = if decide (type = t) then set_delete h (listenersOf bus type) else listenersOf bus t.
Proof.
  unfold off1, listenersOf.
  destruct (listeners bus !! type) as [l|] eqn:E; simpl.
  - rewrite lookup_insert. by case_decide.
  - case_decide; [|done]. subst t. by rewrite E.
Qed.

(** The listener sets after [on]: the handler is added to the set of every
    listed type, once. *)
Lemma listenersOf_on types h bus t :
  listenersOf (on types h bus) t
  = if decide (t ∈ types) then set_add h (listenersOf bus t) else listenersOf bus t.
Proof.
  unfold on. revert bus. induction types as [|t0 types IH]; intros bus; cbn [foldl].
  - case_decide as E; [by apply elem_of_nil in E|done].
  - rewrite IH, listenersOf_on1.
    repeat case_decide; subst; try done; try apply set_add_idem;
      exfalso;
      repeat match goal with
             | H : context [_ ∈ _ :: _] |- _ => rewrite elem_of_cons in H
             end; intuition congruence.
Qed.

(** The listener sets after [off]: the handler is gone from the set of every
    listed type. *)
Lemma listenersOf_off types h bus t :
  listenersOf (off types h bus) t
  = if decide (t ∈ types) then set_delete h (listenersOf bus t) else listenersOf bus t.
Proof.
  unfold off. revert bus. induction types as [|t0 types IH]; intros bus; cbn [foldl].
  - case_decide as E; [by apply elem_of_nil in E|done].
  - rewrite IH, listenersOf_off1.
    repeat case_decide; subst; try done; try apply set_delete_idem;
      exfalso;
      repeat match goal with
             | H : context [_ ∈ _ :: _] |- _ => rewrite elem_of_cons in H
             end; intuition congruence.
Qed.

Lemma count_set_add_other h h' (l : list Handler) :
  h' ≠ h →
  length (filter (λ x, x = h') (set_add h l)) = length (filter (λ x, x = h') l).
Proof.
  intros Hne. unfold set_add. case_decide; [done|].
  rewrite filter_app, length_app, filter_cons. case_decide; [congruence|].
  rewrite filter_nil. simpl. lia.
Qed.

Lemma count_set_delete_other h h' (l : list Handler) :
  h' ≠ h →
  length (filter (λ x, x = h') (set_delete h l)) = length (filter (λ x, x = h') l).
Proof.
  intros Hne. unfold set_delete. induction l as [|x l IH]; [done|].
  rewrite (filter_cons _ x l). case_decide as E.
  - rewrite !filter_cons. case_decide; simpl; by rewrite IH.
  - rewrite (filter_cons (λ y, y = h') x l). case_decide; [congruence|done].
Qed.

(** The invocations of one handler depend on the history and on how often
    the handler sits in each listener set, and on nothing else. *)
Lemma invocations_congruence h now (m : option (Message Data)) bus1 bus2 :
  messageHistory bus1 = messageHistory bus2 →
  (∀ t, length (filter (λ x, x = h) (listenersOf bus1 t))
        = length (filter (λ x, x = h) (listenersOf bus2 t))) →
  invocations h (handleMessage now m bus1).2 = invocations h (handleMessage now m bus2).2.
Proof.
  intros Hh Hl. unfold handleMessage. destruct m as [m|]; [|done].
  destruct (mtype m) as [type|]; [|done]. case_decide; [done|].
  rewrite Hh. case_decide; [done|]. cbn [snd].
  by rewrite !invocations_dispatch, !Hl.
Qed.

(** X1. After [off(types, h)] no message of a listed type invokes [h] again,
    as long as [h] holds no wildcard registration that the call left in
    place. *)
Theorem off_stops_delivery bus (types : list string) h t now (m : Message Data) :
  mtype m = Some t →
  t ∈ types →
  "*" ∈ types ∨ h ∉ listenersOf bus "*" →
  invocations h (handleMessage now (Some m) (off types h bus)).2 = 0%nat.
Proof.
  intros Hm Ht Hwild. unfold handleMessage. rewrite Hm.
  case_decide; [done|]. case_decide; [done|]. cbn [snd].
  rewrite invocations_dispatch, !listenersOf_off.
  rewrite (decide_True (P := t ∈ types)) by done.
  rewrite !count_not_in; [done| |].
  - case_decide.
    + rewrite elem_of_set_delete. tauto.
    + by destruct Hwild.
  - rewrite elem_of_set_delete. tauto.
Qed.

(** X2. Registering or removing one handler never changes how often another
    handler is invoked, whatever the message. *)
Theorem registration_isolated bus (types : list string) h h' now
    (m : option (Message Data)) :
  h' ≠ h →
  invocations h' (handleMessage now m (on types h bus)).2
    = invocations h' (handleMessage now m bus).2
  ∧ invocations h' (handleMessage now m (off types h bus)).2
    = invocations h' (handleMessage now m bus).2.
Proof.
  intros Hne. split; apply invocations_congruence.
  - by destruct (on_frame types h bus) as (-> & _).
  - intros t. rewrite listenersOf_on. case_decide; [|done].
    by apply count_set_add_other.
  - by destruct (off_frame types h bus) as (-> & _).
  - intros t. rewrite listenersOf_off. case_decide; [|done].
    by apply count_set_delete_other.
Qed.

(** X3. The function returned by [on(types, h)] removes [h] from every listed
    type whether or not that call had added it: an earlier registration of
    the same handler is removed with it.  When [h] was not registered before,
    the listener set is back to what it was. *)
Theorem unsubscribe_after_on bus (types : list string) h t :
  listenersOf (off types h (on types h bus)) t
    = (if decide (t ∈ types) then set_delete h (listenersOf bus t)
       else listenersOf bus t)
  ∧ (h ∉ listenersOf bus t →
     listenersOf (off types h (on types h bus)) t = listenersOf bus t).
Proof.
  assert (Hform : listenersOf (off types h (on types h bus)) t
    = (if decide (t ∈ types) then set_delete h (listenersOf bus t)
       else listenersOf bus t)).
  { rewrite listenersOf_off, listenersOf_on. case_decide; [|done].
    apply set_delete_add. }
  split; [done|]. intros Hout. rewrite Hform. case_decide; [|done].
  by apply set_delete_absent.
Qed.

(** X4. A delivered message invokes a handler once for each registration it
    reaches: once under the message type and once more under ['*'].  A
    handler registered under both is therefore invoked twice, and so is a
    wildcard handler when the message type is itself ['*']. *)
Theorem invoked_once_per_registration s type h now (d : Data) ts :
  Reachable (Data:=Data) s →
  type ≠ "" →
  messageKey type ts ∉ messageHistory s →
  invocations h
    (handleMessage now (Some {| mtype := Some type; mdata := d; mtimestamp := ts |}) s).2
  = ((if decide (h ∈ listenersOf s type) then 1 else 0)
     + (if decide (h ∈ listenersOf s "*") then 1 else 0))%nat.
Proof.
  intros Hreach Hty Hkey. rewrite handleMessage_fresh by done. cbn [snd].
  rewrite invocations_dispatch.
  destruct (Reachable_ok s Hreach) as [Hok _].
  f_equal; case_decide;
    auto using count_NoDup_in, count_not_in, listenersOf_NoDup.
Qed.

(** X5. The memory of a key ends with its cleanup: once the timer set when
    the message was accepted has run, the history is what it was before, and
    a message with the same type and timestamp is delivered again. *)
Theorem delivered_again_after_cleanup s type (d1 d2 : Data) (ts t1 now t2 : Z) :
  type ≠ "" →
  messageKey type ts ∉ messageHistory s →
  t1 + deduplicationWindow s ≤ now →
  let first :=
    handleMessage t1 (Some {| mtype := Some type; mdata := d1; mtimestamp := ts |}) s in
  let expired :=
    fireTimer now (t1 + deduplicationWindow s, messageKey type ts) first.1 in
  let second :=
    handleMessage t2 (Some {| mtype := Some type; mdata := d2; mtimestamp := ts |})
                  expired in
  messageHistory expired = messageHistory s
  ∧ second.2 = dispatch s type d2.
Proof.
  intros Hty Hkey Hdue first expired second. subst first expired second.
  rewrite handleMessage_fresh by done. cbn [fst].
  unfold fireTimer. cbn [timers messageHistory listeners deduplicationWindow fst snd].
  rewrite decide_True.
  2:{ split; [|done]. apply elem_of_app. right. apply list_elem_of_here. }
  assert (Hhist : ({[messageKey type ts]} ∪ messageHistory s) ∖ {[messageKey type ts]}
                  = messageHistory s).
  { apply set_eq. intros k.
    rewrite elem_of_difference, elem_of_union, elem_of_singleton.
    split; [tauto|]. intros Hk. split; [by right|]. by intros ->. }
  cbn [messageHistory]. split; [done|].
  rewrite handleMessage_fresh; [done|done|]. cbn [messageHistory]. by rewrite Hhist.
Qed.

Lemma remove_first_keeps tm x (l : list (Z * string)) :
  x ∈ l → x ≠ tm → x ∈ remove_first tm l.
Proof.
  induction l as [|y l IH]; intros Hx Hne; [done|]. simpl.
  apply elem_of_cons in Hx as [->|Hx].
  - rewrite decide_False by done. apply list_elem_of_here.
  - case_decide; [done|]. apply list_elem_of_further. by apply IH.
Qed.

(** X6. In every state the bus reaches, the remembered keys are exactly the
    keys with a pending cleanup timer, one timer for each: nothing is
    remembered for ever and no cleanup is left behind. *)
Theorem remembered_iff_pending bus :
  Reachable (Data:=Data) bus →
  NoDup (timers bus).*2
  ∧ ∀ key, key ∈ messageHistory bus ↔ key ∈ (timers bus).*2.
Proof.
  intros Hreach. destruct (Reachable_ok bus Hreach) as [_ [Hnd Hin]].
  split; [done|]. intros key. split.
  - clear Hnd Hin. revert key.
    induction Hreach as [|types cb bus _ IH|types cb bus _ IH
                         |now m bus _ IH|now tm bus Hr IH]; intros key.
    + simpl. intros Hk. by apply not_elem_of_empty in Hk.
    + destruct (on_frame types cb bus) as (-> & -> & _). apply IH.
    + destruct (off_frame types cb bus) as (-> & -> & _). apply IH.
    + unfold handleMessage. destruct m as [m|]; [|apply IH].
      destruct (mtype m) as [type|]; [|apply IH].
      case_decide; [apply IH|]. case_decide; [apply IH|].
      cbn [fst messageHistory timers]. rewrite fmap_app, elem_of_app, elem_of_union.
      intros [Hk|Hk]; [right|left; by apply IH].
      apply elem_of_singleton in Hk. subst key. apply list_elem_of_here.
    + unfold fireTimer. case_decide as Hf; [|apply IH].
      cbn [messageHistory timers]. intros Hk.
      apply elem_of_difference in Hk as [Hk Hne].
      apply IH, list_elem_of_fmap in Hk as (x & -> & Hx).
      apply list_elem_of_fmap_2, remove_first_keeps; [done|].
      intros ->. apply Hne. by apply elem_of_singleton.
  - intros Hk. apply list_elem_of_fmap in Hk as (x & -> & Hx). by apply Hin.
Qed.

End BusMore.

(** Handler 4 unsubscribed from ['beat'] and ['theme:update'] at once. *)
Lemma off_stops_delivery_witness :
  Bus.invocations 4%nat
    (Bus.handleMessage 10
       (Some {| Bus.mtype := Some "beat"; Bus.mdata := "kick"; Bus.mtimestamp := 9 |})
       (Bus.off ["beat"; "theme:update"] 4%nat
          (Bus.on ["beat"; "theme:update"] 4%nat Bus.new))).2 = 0%nat.
Proof.
  apply (off_stops_delivery
           (Bus.on ["beat"; "theme:update"] 4%nat Bus.new)
           ["beat"; "theme:update"] 4%nat "beat" 10
           {| Bus.mtype := Some "beat"; Bus.mdata := "kick"; Bus.mtimestamp := 9 |}).
  - reflexivity.
  - apply list_elem_of_here.
  - right. vm_compute. apply not_elem_of_nil.
Defined.

(** Handlers 1 and 2 on ['beat']; registering 2 again leaves 1 alone. *)
Lemma registration_isolated_witness :
  let bus := Bus.on ["beat"] 1%nat Bus.new in
  let m := Some {| Bus.mtype := Some "beat"; Bus.mdata := "kick"; Bus.mtimestamp := 9 |} in
  Bus.invocations 1%nat (Bus.handleMessage 10 m (Bus.on ["beat"] 2%nat bus)).2
    = Bus.invocations 1%nat (Bus.handleMessage 10 m bus).2
  ∧ Bus.invocations 1%nat (Bus.handleMessage 10 m (Bus.off ["beat"] 2%nat bus)).2
    = Bus.invocations 1%nat (Bus.handleMessage 10 m bus).2.
Proof.
  apply (registration_isolated (Bus.on ["beat"] 1%nat Bus.new) ["beat"] 2%nat 1%nat 10).
  discriminate.
Defined.

(** Handler 5 on a fresh bus: subscribe, then call the returned function. *)
Lemma unsubscribe_after_on_witness :
  Bus.listenersOf (Bus.off ["beat"] 5%nat (Bus.on ["beat"] 5%nat Bus.new)) "beat"
  = Bus.listenersOf Bus.new "beat".
Proof.
  apply (proj2 (unsubscribe_after_on Bus.new ["beat"] 5%nat "beat")).
  vm_compute. apply not_elem_of_nil.
Defined.

(** Handler 6 registered under ['beat'] and under ['*']: two calls. *)
Lemma invoked_once_per_registration_witness :
  Bus.invocations 6%nat
    (Bus.handleMessage 10
       (Some {| Bus.mtype := Some "beat"; Bus.mdata := "kick"; Bus.mtimestamp := 9 |})
       (Bus.on ["beat"; "*"] 6%nat Bus.new)).2 = 2%nat.
Proof.
  rewrite (invoked_once_per_registration (Bus.on ["beat"; "*"] 6%nat Bus.new)
             "beat" 6%nat 10 "kick" 9).
  - reflexivity.
  - apply Bus.R_on, Bus.R_new.
  - discriminate.
  - apply not_elem_of_empty.
Defined.

(** One message, its cleanup 100 ms later, and the same message again. *)
Lemma delivered_again_after_cleanup_witness :
  let s := Bus.on ["beat"] 7%nat Bus.new in
  let m := Some {| Bus.mtype := Some "beat"; Bus.mdata := "kick"; Bus.mtimestamp := 990 |} in
  let expired := Bus.fireTimer 1100 (1100, Bus.messageKey "beat" 990)
                   (Bus.handleMessage 1000 m s).1 in
  Bus.messageHistory expired = Bus.messageHistory s
  ∧ (Bus.handleMessage 1101 m expired).2 = Bus.dispatch s "beat" "kick".
Proof.
  apply (delivered_again_after_cleanup (Bus.on ["beat"] 7%nat Bus.new)
           "beat" "kick" "kick" 990 1000 1100 1101).
  - discriminate.
  - apply not_elem_of_empty.
  - reflexivity.
Defined.

(** The bus after one accepted message. *)
Lemma remembered_iff_pending_witness :
  let bus := (Bus.handleMessage 1000
                (Some {| Bus.mtype := Some "beat"; Bus.mdata := "kick";
                         Bus.mtimestamp := 990 |}) Bus.new).1 in
  NoDup (Bus.timers bus).*2
  ∧ ∀ key, key ∈ Bus.messageHistory bus ↔ key ∈ (Bus.timers bus).*2.
Proof.
  apply (remembered_iff_pending (Data:=string)).
  apply Bus.R_handle, Bus.R_new.
Defined.

Section ChannelFacts.

Import Bus Endpoint.
Context {Data : Type}.
Variable cloneable : Data → bool.

(** X7. Two [emit] calls of the same type in the same millisecond stamp
    their messages alike, so a peer that accepts the first drops the second
    while the window is open, whatever its payload: the handlers see the
    first payload only. *)
Theorem same_millisecond_emits_collide (sender : Endpoint) (peer : EventBus)
    (now : Z) (type : string) (d1 d2 : Data) (m1 m2 : Message Data)
    (t1 t2 : Z) (mid : list (Z * (Z * string))) :
  emit cloneable now type d1 sender = Some m1 →
  emit cloneable now type d2 sender = Some m2 →
  Reachable (Data:=Data) peer →
  type ≠ "" →
  messageKey type now ∉ messageHistory peer →
  t2 < t1 + deduplicationWindow peer →
  Forall (λ ev : Z * (Z * string), ev.1 ≤ t2) mid →
  let first := handleMessage t1 (Some m1) peer in
  first.2 = dispatch peer type d1
  ∧ (handleMessage t2 (Some m2) (fireTimers mid first.1)).2 = [].
Proof.
  intros H1 H2 Hreach Hty Hkey Hwin Hmid first. subst first.
  unfold emit in H1, H2.
  destruct (channel sender); [|done].
  destruct (cloneable d1); [|done]. destruct (cloneable d2); [|done].
  injection H1 as <-. injection H2 as <-.
  destruct (Reachable_ok peer Hreach) as [_ [_ Htin]].
  rewrite handleMessage_fresh by done. cbn [fst snd]. split; [done|].
  rewrite handleMessage_duplicate; [done|].
  apply (fireTimers_keeps _ t2); [done| |].
  - cbn [messageHistory]. apply elem_of_union_l. by apply elem_of_singleton.
  - cbn [timers]. intros tm Htm Hk.
    apply elem_of_app in Htm as [Htm|Htm].
    + exfalso. apply Hkey. rewrite <- Hk. by apply Htin.
    + apply list_elem_of_singleton in Htm. subst tm. simpl. lia.
Qed.

(** X8. After [disconnect()] the endpoint posts nothing and receives
    nothing, a direct [handleMessage] call finds no listener to invoke, and
    the cleanup timers still pending run on the cleared history without
    adding anything to it. *)
Theorem disconnect_silences (ep : Endpoint) (now : Z) (type : string) (d : Data)
    (m : Message Data) (evs : list (Z * (Z * string))) :
  let closed := disconnect ep in
  emit cloneable now type d closed = None
  ∧ receive now m closed = (closed, [])
  ∧ (handleMessage now (Some m) (core closed)).2 = []
  ∧ messageHistory (fireTimers evs (core closed)) = ∅.
Proof.
  intros closed. subst closed. split; [done|]. split; [done|]. split.
  - unfold handleMessage. destruct (mtype m) as [ty|]; [|done].
    case_decide; [done|]. case_decide; [done|]. cbn [snd].
    unfold dispatch, listenersOf, disconnect. cbn [core listeners].
    by rewrite !lookup_empty.
  - destruct (fireTimers_frame evs (core (disconnect ep))) as [_ Hsub].
    apply set_eq. intros k. split; [|intros Hk; by apply not_elem_of_empty in Hk].
    intros Hk. by apply Hsub in Hk.
Qed.

End ChannelFacts.

(** Two kicks emitted at millisecond 990; a peer with handler 7 receives
    them 1 ms apart. *)
Lemma same_millisecond_emits_collide_witness :
  let peer := Bus.on ["beat"] 7%nat Bus.new in
  let m1 := {| Bus.mtype := Some "beat"; Bus.mdata := "kick"; Bus.mtimestamp := 990 |} in
  let m2 := {| Bus.mtype := Some "beat"; Bus.mdata := "snare"; Bus.mtimestamp := 990 |} in
  let first := Bus.handleMessage 1000 (Some m1) peer in
  first.2 = Bus.dispatch peer "beat" "kick"
  ∧ (Bus.handleMessage 1001 (Some m2) (Bus.fireTimers [] first.1)).2 = [].
Proof.
  apply (same_millisecond_emits_collide (λ _, true) (Endpoint.new true)
           (Bus.on ["beat"] 7%nat Bus.new) 990 "beat" "kick" "snare" _ _ 1000 1001 []).
  - reflexivity.
  - reflexivity.
  - apply Bus.R_on, Bus.R_new.
  - discriminate.
  - apply not_elem_of_empty.
  - reflexivity.
  - constructor.
Defined.

(** ** Beat engine: tempo bounds, timers, tick numbering *)

Section BeatMore.

Import Beat BeatLife.
Context {Features : Type}.
Implicit Types (s : System Features).


Lemma validated_keeps (q : Q) :
  (0 < q)%Q → (q <= 300)%Q →
  validated (Number (Finite q)) = Number (Finite q) ∧ Qeq_bool q 0 = false.
Proof.
  intros Hpos Hle. unfold validated. simpl.
  destruct (Qeq_bool q 0) eqn:E.
  { apply Qeq_bool_iff in E. rewrite E in Hpos. by apply Qlt_irrefl in Hpos. }
  destruct (Qle_bool q 0) eqn:E0.
  { apply Qle_bool_iff in E0. exfalso. by apply (Qlt_not_le _ _ Hpos). }
  apply Qle_bool_iff in Hle. by rewrite Hle.
Qed.

(** What [setBPM] stores, with or without a bus. *)
Lemma setBPM_stores (now : Z) (arg : JsValue) (features : Features) s :
  bpm (engine (setBPM now arg features s).1) = validated arg
  ∧ beatInterval (engine (setBPM now arg features s).1)
    = Number (perBeat (validated arg)).
Proof.
  destruct (eventBus (engine s)) eqn:Hbus.
  - by rewrite setBPM_with_bus.
  - by destruct (setBPM_without_bus now arg features s Hbus) as (_ & -> & ->).
Qed.



Lemma one_timer_emitBeat now s : one_timer s → one_timer (emitBeat now s).1.
Proof. unfold one_timer, emitBeat. by destruct (eventBus (engine s)). Qed.

Lemma stopBeat_clears s : one_timer s → intervals (stopBeat s) = [].
Proof.
  intros [Hint _]. unfold stopBeat. cbn [intervals].
  destruct (beatTimerId (engine s)) as [id|]; simpl in Hint.
  - destruct (intervals s) as [|[id' p] [|? ?]]; simplify_eq/=.
    rewrite filter_cons. simpl. by rewrite decide_False by (intros Hc; by apply Hc).
  - by destruct (intervals s).
Qed.

Lemma one_timer_stopBeat s : one_timer s → one_timer (stopBeat s).
Proof.
  intros H. split; [|done]. rewrite (stopBeat_clears s H). done.
Qed.

Lemma one_timer_startBeat now s : one_timer s → one_timer (startBeat now s).1.
Proof.
  intros Hone. pose proof Hone as [Hint Hrun]. unfold startBeat.
  destruct (noBpm (engine s)); [exact Hone|].
  destruct (isRunning (engine s)) eqn:Hr; [exact Hone|].
  specialize (Hrun eq_refl). rewrite Hrun in Hint. simpl in Hint.
  apply fmap_nil_inv in Hint.
  unfold emitBeat. cbn [engine eventBus].
  destruct (eventBus (engine s)); cbn [fst]; split; cbn; try done.
  - by rewrite Hint.
  - by rewrite Hint, Hrun.
Qed.

Lemma Reachable_one_timer s : Reachable s → one_timer s.
Proof.
  induction 1 as [bus|now arg f s _ IH|now s _ IH|s _ IH|now s _ IH
                  |now id s _ IH|s _ IH].
  - done.
  - unfold setBPM. apply one_timer_startBeat, one_timer_stopBeat.
    destruct IH as [Hi Hr]. split; [done|]. apply Hr.
  - by apply one_timer_startBeat.
  - by apply one_timer_stopBeat.
  - by apply one_timer_emitBeat.
  - unfold intervalTick. case_decide; [by apply one_timer_emitBeat|done].
  - apply one_timer_stopBeat in IH. unfold destroy.
    destruct IH as [Hi Hr]. split; [done|]. apply Hr.
Qed.

(** X11. An engine never holds more than one interval timer: in every state
    it reaches, the host's timer table holds exactly the timer named by
    [beatTimerId], and nothing while the engine is not running. *)
Theorem at_most_one_timer s :
  Reachable s →
  (intervals s).*1 = option_list (beatTimerId (engine s))
  ∧ (length (intervals s) ≤ 1)%nat
  ∧ (isRunning (engine s) = false → intervals s = []).
Proof.
  intros Hreach. destruct (Reachable_one_timer s Hreach) as [Hint Hrun].
  split; [done|]. split.
  - apply (f_equal length) in Hint. rewrite length_fmap in Hint. rewrite Hint.
    destruct (beatTimerId (engine s)); simpl; lia.
  - intros Hr. rewrite (Hrun Hr) in Hint. by apply fmap_nil_inv in Hint.
Qed.

Lemma ticks_without_timers times id s : intervals s = [] → ticks times id s = s.
Proof.
  intros Hnone. unfold ticks. induction times as [|now times IH]; [done|].
  simpl. unfold intervalTick at 2. rewrite Hnone.
  rewrite decide_False; [done|]. apply not_elem_of_nil.
Qed.

(** X12. After [stopBeat()], and after [destroy()], no timer callback of the
    engine does anything any more: whatever timer fires whenever, the state
    stays as the call left it and no tick is emitted. *)
Theorem no_tick_after_stop s (times : list Z) (id : positive) :
  Reachable s →
  ticks times id (stopBeat s) = stopBeat s
  ∧ ticks times id (destroy s) = destroy s
  ∧ emitted (ticks times id (stopBeat s)) = emitted s
  ∧ emitted (ticks times id (destroy s)) = emitted s.
Proof.
  intros Hreach. pose proof (Reachable_one_timer s Hreach) as Hone.
  assert (Hs : ticks times id (stopBeat s) = stopBeat s)
    by (apply ticks_without_timers; by apply stopBeat_clears).
  assert (Hd : ticks times id (destroy s) = destroy s)
    by (apply ticks_without_timers; unfold destroy; cbn [intervals];
        by apply stopBeat_clears).
  by rewrite Hs, Hd.
Qed.

Lemma intervalTick_step now id s :
  eventBus (engine s) = true →
  id ∈ (intervals s).*1 →
  eventBus (engine (intervalTick now id s).1) = true
  ∧ intervals (intervalTick now id s).1 = intervals s
  ∧ beatCount (engine (intervalTick now id s).1) = beatCount (engine s) + 1
  ∧ tick_beatCount <$> emitted (intervalTick now id s).1
    = (tick_beatCount <$> emitted s) ++ [beatCount (engine s) + 1].
Proof.
  intros Hbus Hid. unfold intervalTick. rewrite decide_True by done.
  unfold emitBeat. rewrite Hbus. cbn. by rewrite fmap_app.
Qed.

Lemma shifted_seq (c : Z) (n : nat) :
  (λ k, c + 1 + Z.of_nat k) <$> seq 1 n = (λ k, c + Z.of_nat k) <$> seq 2 n.
Proof.
  rewrite <- (fmap_S_seq 1), <- list_fmap_compose.
  apply list_fmap_ext. intros _ k _. simpl. lia.
Qed.

Lemma ticks_count times id s :
  eventBus (engine s) = true →
  id ∈ (intervals s).*1 →
  beatCount (engine (ticks times id s)) = beatCount (engine s) + Z.of_nat (length times)
  ∧ tick_beatCount <$> emitted (ticks times id s)
    = (tick_beatCount <$> emitted s)
      ++ ((λ k, beatCount (engine s) + Z.of_nat k) <$> seq 1 (length times)).
Proof.
  unfold ticks. revert s. induction times as [|now times IH]; intros s Hbus Hid.
  - simpl. split; [lia|]. by rewrite app_nil_r.
  - cbn [foldl].
    destruct (intervalTick_step now id s Hbus Hid) as (Hb & Hi & Hc & He).
    destruct (IH (intervalTick now id s).1 Hb) as [Hc' He'].
    { by rewrite Hi. }
    rewrite Hc', He', Hc, He. cbn [length]. split; [lia|].
    rewrite <- app_assoc. f_equal. rewrite shifted_seq.
    cbn [seq fmap list_fmap app]. first [reflexivity | f_equal; lia].
Qed.

(** X13. Ticks are numbered without gaps from 1: after [setBPM] on an engine
    with its bus, the immediate tick carries 1 and the n-th firing of the new
    interval timer carries n + 1, which is also where [beatCount] stands. *)
Theorem ticks_numbered_from_one (now : Z) (arg : JsValue)
    (features : Features) s (times : list Z) :
  eventBus (engine s) = true →
  let started := (setBPM now arg features s).1 in
  let after := ticks times (nextTimerId s) started in
  beatCount (engine after) = Z.of_nat (S (length times))
  ∧ tick_beatCount <$> emitted after
    = (tick_beatCount <$> emitted s) ++ (Z.of_nat <$> seq 1 (S (length times))).
Proof.
  intros Hbus started after. subst started after.
  rewrite setBPM_with_bus by done. cbn [fst].
  match goal with |- context [ticks times _ ?st] =>
    destruct (ticks_count times (nextTimerId s) st) as [Hc He] end.
  - done.
  - cbn [intervals]. rewrite fmap_app. apply elem_of_app. right. apply list_elem_of_here.
  - rewrite Hc, He. cbn [engine beatCount emitted]. split; [lia|].
    rewrite fmap_app, <- app_assoc. f_equal.
    rewrite (shifted_seq 0). reflexivity.
Qed.

(** X14. After [destroy()] a call to [setBPM] raises, emits nothing and
    starts no timer, yet leaves the engine marked as running. *)
Theorem setBPM_after_destroy s (now : Z) (arg : JsValue) (features : Features) :
  Reachable s →
  let after := setBPM now arg features (destroy s) in
  after.2 = Thrown
  ∧ emitted after.1 = emitted s
  ∧ intervals after.1 = []
  ∧ isRunning (engine after.1) = true.
Proof.
  intros Hreach after. subst after.
  pose proof (stopBeat_clears s (Reachable_one_timer s Hreach)) as Hclear.
  unfold stopBeat in Hclear. cbn in Hclear.
  unfold setBPM, startBeat, noBpm, destroy, stopBeat. cbn.
  rewrite validated_truthy. cbn. by rewrite Hclear.
Qed.

End BeatMore.


(** An engine restarted at another tempo: still one timer. *)
Lemma at_most_one_timer_witness :
  let s := (Beat.setBPM 5 (Beat.Number (Beat.Finite 140)) tt
              (Beat.setBPM 0 (Beat.Number (Beat.Finite 128)) tt (Beat.new true)).1).1 in
  (Beat.intervals s).*1 = option_list (Beat.beatTimerId (Beat.engine s))
  ∧ (length (Beat.intervals s) ≤ 1)%nat
  ∧ (Beat.isRunning (Beat.engine s) = false → Beat.intervals s = []).
Proof.
  apply (at_most_one_timer (Features:=unit)).
  apply BeatLife.R_setBPM, BeatLife.R_setBPM, BeatLife.R_new.
Defined.

(** A running engine stopped; its old timer 1 fires twice more. *)
Lemma no_tick_after_stop_witness :
  let s := (Beat.setBPM 0 (Beat.Number (Beat.Finite 128)) tt (Beat.new true)).1 in
  BeatLife.ticks [469; 938] 1%positive (Beat.stopBeat s) = Beat.stopBeat s
  ∧ BeatLife.ticks [469; 938] 1%positive (Beat.destroy s) = Beat.destroy s
  ∧ Beat.emitted (BeatLife.ticks [469; 938] 1%positive (Beat.stopBeat s)) = Beat.emitted s
  ∧ Beat.emitted (BeatLife.ticks [469; 938] 1%positive (Beat.destroy s)) = Beat.emitted s.
Proof.
  apply (no_tick_after_stop (Features:=unit)).
  apply BeatLife.R_setBPM, BeatLife.R_new.
Defined.

(** [setBPM(120)] and three firings of the timer: ticks 1, 2, 3, 4. *)
Lemma ticks_numbered_from_one_witness :
  let started := (Beat.setBPM 0 (Beat.Number (Beat.Finite 120)) tt (Beat.new true)).1 in
  let after := BeatLife.ticks [500; 1000; 1500] 1%positive started in
  Beat.beatCount (Beat.engine after) = 4
  ∧ Beat.tick_beatCount <$> Beat.emitted after = [1; 2; 3; 4].
Proof.
  apply (ticks_numbered_from_one 0 (Beat.Number (Beat.Finite 120)) tt (Beat.new true)
           [500; 1000; 1500]).
  reflexivity.
Defined.

(** A destroyed engine asked for a new tempo. *)
Lemma setBPM_after_destroy_witness :
  let s := (Beat.setBPM 0 (Beat.Number (Beat.Finite 128)) tt (Beat.new true)).1 in
  let after := Beat.setBPM 9 (Beat.Number (Beat.Finite 140)) tt (Beat.destroy s) in
  after.2 = Beat.Thrown
  ∧ Beat.emitted after.1 = Beat.emitted s
  ∧ Beat.intervals after.1 = []
  ∧ Beat.isRunning (Beat.engine after.1) = true.
Proof.
  apply (setBPM_after_destroy (Features:=unit)).
  apply BeatLife.R_setBPM, BeatLife.R_new.
Defined.

(** ** Colour extractor: filter, clustering, ranking *)

Section ExtractorMore.

Import Extractor Palettes.
Implicit Types (colors centroids : list Color) (clusters : list (list Color)).

Lemma collect_inv (pixels : list Pixel) (c : Color) :
  c ∈ collect pixels →
  ∃ p, p ∈ pixels ∧ c = colorOf p
       ∧ 128 ≤ pa p
       ∧ 90 < r c + g c + b c < 675
       ∧ Z.max (Z.max (r c) (g c)) (b c)
         < 5 * (Z.max (Z.max (r c) (g c)) (b c) - Z.min (Z.min (r c) (g c)) (b c))
       ∧ ¬ (r c = g c ∧ g c = b c).
Proof.
  unfold collect. intros Hc.
  apply list_elem_of_fmap in Hc as (p & -> & Hp).
  apply list_elem_of_filter in Hp as [Hv Hp].
  exists p. split; [done|]. split; [done|]. cbn [r g b].
  unfold vibrant in Hv.
  destruct (pa p <? 128) eqn:Ea; [done|]. apply Z.ltb_ge in Ea.
  apply andb_prop in Hv as [Hv Hsat]. apply andb_prop in Hv as [Hlo Hhi].
  apply Z.ltb_lt in Hlo, Hhi.
  destruct (Z.max (Z.max (pr p) (pg p)) (pb p) =? 0) eqn:E0; [done|].
  apply Z.ltb_lt in Hsat. repeat split; try done; try lia.
Qed.

(** X15. Only opaque, mid-bright, saturated pixels reach the clustering: a
    collected colour comes from a pixel with alpha at least 128, a channel sum
    strictly between 90 and 675 and a spread of more than a fifth of its
    largest channel.  In particular no grey pixel is ever collected. *)
Theorem collect_only_vibrant (pixels : list Pixel) (c : Color) :
  c ∈ collect pixels →
  ∃ p, p ∈ pixels ∧ c = colorOf p
       ∧ 128 ≤ pa p
       ∧ 90 < r c + g c + b c < 675
       ∧ Z.max (Z.max (r c) (g c)) (b c)
         < 5 * (Z.max (Z.max (r c) (g c)) (b c) - Z.min (Z.min (r c) (g c)) (b c))
       ∧ ¬ (r c = g c ∧ g c = b c).
Proof. apply collect_inv. Qed.

(** X16. An image without a vibrant pixel, such as a greyscale or a fully
    transparent one, resolves to the fallback palette for every color
    count. *)
Theorem grey_image_falls_back (pixels : list Pixel) (colorCount : Z) :
  Forall (λ p, (pr p = pg p ∧ pg p = pb p) ∨ pa p < 128) pixels →
  extractColors (Loaded (Some pixels)) colorCount = Resolved fallback.
Proof.
  intros Hall. simpl.
  destruct (collect pixels) as [|c cs] eqn:E; [done|]. exfalso.
  destruct (collect_inv pixels c) as (p & Hp & -> & Ha & _ & _ & Hgrey).
  { rewrite E. apply list_elem_of_here. }
  rewrite Forall_forall in Hall. destruct (Hall p Hp) as [Hg|Ht]; [|lia].
  by apply Hgrey.
Qed.

Lemma insertByVibrancy_perm x (l : list Color) : insertByVibrancy x l ≡ₚ x :: l.
Proof.
  induction l as [|y l IH]; simpl; [done|].
  destruct (Qle_bool _ _); [done|]. rewrite IH. apply Permutation_swap.
Qed.

Lemma insertByVibrancy_ranked x (l : list Color) : ranked l → ranked (insertByVibrancy x l).
Proof.
  induction l as [|y l IH]; simpl; [done|]. intros [Hy Hl].
  destruct (Qle_bool (calculateVibrancy y) (calculateVibrancy x)) eqn:E.
  - apply Qle_bool_iff in E. simpl. split; [|done].
    constructor; [done|]. eapply Forall_impl; [exact Hy|].
    intros z Hz. simpl in Hz. by eapply Qle_trans.
  - simpl. split; [|by apply IH].
    rewrite insertByVibrancy_perm. constructor; [|done].
    apply Qlt_le_weak, Qnot_le_lt. intros Hle.
    apply Qle_bool_iff in Hle. congruence.
Qed.

Lemma sortByVibrancy_perm_ranked colors :
  sortByVibrancy colors ≡ₚ colors ∧ ranked (sortByVibrancy colors).
Proof.
  unfold sortByVibrancy. induction colors as [|c colors [IHp IHr]]; simpl; [done|].
  split; [|by apply insertByVibrancy_ranked].
  by rewrite insertByVibrancy_perm, IHp.
Qed.

(** X17. Ranking keeps every colour and orders them by vibrancy, most
    vibrant first. *)
Theorem sortByVibrancy_ranks colors :
  sortByVibrancy colors ≡ₚ colors ∧ ranked (sortByVibrancy colors).
Proof. apply sortByVibrancy_perm_ranked. Qed.

Lemma roundDiv_between (lo hi sum n : Z) :
  0 < n → lo * n ≤ sum ≤ hi * n → lo ≤ roundDiv sum n ≤ hi.
Proof.
  intros Hn [Hlo Hhi]. unfold roundDiv. split.
  - apply Z.div_le_lower_bound; lia.
  - apply Z.lt_succ_r, Z.div_lt_upper_bound; lia.
Qed.

Lemma channel_sum_between (f : Color → Z) (lo hi a : Z) (cluster : list Color) :
  Forall (λ c, lo ≤ f c ≤ hi) cluster →
  a + lo * Z.of_nat (length cluster)
  ≤ foldl (λ sum c, sum + f c) a cluster
  ≤ a + hi * Z.of_nat (length cluster).
Proof.
  intros Hall. revert a. induction Hall as [|c cluster Hc _ IH]; intros a.
  - simpl. lia.
  - cbn [foldl length]. specialize (IH (a + f c)). lia.
Qed.

Lemma mean_between (f : Color → Z) (lo hi : Z) (l : list Color) :
  l ≠ [] → Forall (λ c, lo ≤ f c ≤ hi) l →
  lo ≤ roundDiv (foldl (λ sum c, sum + f c) 0 l) (Z.of_nat (length l)) ≤ hi.
Proof.
  intros Hne Hall. apply roundDiv_between.
  - destruct l; [done|]. simpl. lia.
  - pose proof (channel_sum_between f lo hi 0 l Hall). lia.
Qed.

Lemma recentre_inRange (lo hi : Z) centroids (cluster : list Color) (c : Color) :
  Forall (inRange lo hi) centroids → Forall (inRange lo hi) cluster →
  recentre centroids cluster = Some c → inRange lo hi c.
Proof.
  intros Hcen Hcl. unfold recentre. destruct cluster as [|x cluster].
  - destruct centroids as [|c0 ?]; [done|]. intros [= <-]. by inversion Hcen.
  - intros [= <-]. unfold inRange. cbn [r g b].
    split; [|split].
    + apply (mean_between r lo hi (x :: cluster)); [done|].
      eapply Forall_impl; [exact Hcl|]. by intros ? (? & ? & ?).
    + apply (mean_between g lo hi (x :: cluster)); [done|].
      eapply Forall_impl; [exact Hcl|]. by intros ? (? & ? & ?).
    + apply (mean_between b lo hi (x :: cluster)); [done|].
      eapply Forall_impl; [exact Hcl|]. by intros ? (? & ? & ?).
Qed.

Lemma assign_members (P : Color → Prop) colors centroids clusters out :
  Forall P colors → Forall (Forall P) clusters →
  assign colors centroids clusters = Some out → Forall (Forall P) out.
Proof.
  intros Hcol. revert clusters.
  induction Hcol as [|color rest Hc _ IH]; intros clusters Hcl; simpl.
  - by intros [= <-].
  - destruct (clusters !! closest color centroids) as [cl|] eqn:E; [|done].
    apply IH. apply Forall_insert; [done|].
    apply Forall_app. split; [|by constructor].
    by eapply Forall_lookup_1 in E.
Qed.

Lemma iterate_inRange (lo hi : Z) (n : nat) colors centroids (k : Z) out :
  Forall (inRange lo hi) colors → Forall (inRange lo hi) centroids →
  iterate n colors centroids k = Some out → Forall (inRange lo hi) out.
Proof.
  intros Hcol. revert centroids.
  induction n as [|n IH]; intros centroids Hcen; simpl; [by intros [= <-]|].
  destruct (assign colors centroids _) as [clusters|] eqn:Ea; [|done].
  destruct (mapM (recentre centroids) clusters) as [new|] eqn:Er; [|done].
  assert (Hnew : Forall (inRange lo hi) new).
  { apply mapM_Some_1 in Er.
    assert (Hcl : Forall (Forall (inRange lo hi)) clusters).
    { eapply assign_members; [exact Hcol| |exact Ea].
      apply Forall_replicate. constructor. }
    clear Ea. induction Er as [|cl c clusters' new' Hr _ IHr]; [constructor|].
    apply Forall_cons in Hcl as [Hcl Hcls].
    constructor; [exact (recentre_inRange lo hi centroids cl c Hcen Hcl Hr)|by apply IHr]. }
  destruct (converged new centroids); [by intros [= <-]|]. by apply IH.
Qed.

Lemma seeds_from_input colors (k : Z) out :
  seeds colors k = Some out → Forall (λ c, c ∈ colors) out.
Proof.
  unfold seeds. intros Hs. apply mapM_Some_1 in Hs.
  induction Hs as [|i c is' out' Hc _ IH]; constructor; [|done].
  by eapply list_elem_of_lookup_2.
Qed.

Lemma kMeansClustering_size colors (k : Z) (maxIterations : nat) :
  colors ≠ [] → 1 ≤ k →
  ∃ out, kMeansClustering colors k maxIterations = Some out
         ∧ Z.of_nat (length out) = Z.min k (Z.of_nat (length colors))
         ∧ ∀ lo hi, Forall (inRange lo hi) colors → Forall (inRange lo hi) out.
Proof.
  intros Hne Hk. unfold kMeansClustering.
  destruct (Z.leb_spec (Z.of_nat (length colors)) k) as [Hle|Hlt].
  { exists colors. split; [done|]. split; [lia|done]. }
  destruct (seeds_total colors k) as (centroids & Hs & Hlen); [lia|]. rewrite Hs.
  assert (Hcne : centroids ≠ []) by (intros ->; simpl in Hlen; lia).
  destruct (iterate_total maxIterations colors centroids k Hcne Hlen)
    as (out & Hout & Hol).
  exists out. split; [done|]. split; [lia|]. intros lo hi Hrange.
  eapply iterate_inRange; [exact Hrange| |exact Hout].
  apply seeds_from_input in Hs. eapply Forall_impl; [exact Hs|].
  intros c Hc. simpl in Hc. rewrite Forall_forall in Hrange. by apply Hrange.
Qed.

(** X18. For a non-empty list and [k >= 1] the clustering returns exactly
    [min(k, length)] colours, and every channel of every returned colour
    lies within the bounds that hold for every input channel: it never
    leaves 0..255 on pixel data. *)
Theorem kMeansClustering_size_and_range colors (k lo hi : Z) (maxIterations : nat) :
  colors ≠ [] → 1 ≤ k →
  Forall (inRange lo hi) colors →
  ∃ out, kMeansClustering colors k maxIterations = Some out
         ∧ Z.of_nat (length out) = Z.min k (Z.of_nat (length colors))
         ∧ Forall (inRange lo hi) out.
Proof.
  intros Hne Hk Hrange.
  destruct (kMeansClustering_size colors k maxIterations Hne Hk) as (out & ? & ? & Hr).
  exists out. auto.
Qed.

Lemma ranked_head (l : list Color) (x : Color) :
  ranked l → head l = Some x →
  Forall (λ y, (calculateVibrancy y <= calculateVibrancy x)%Q) l.
Proof.
  destruct l as [|y l]; [done|]. simpl. intros [Hy _] [= ->].
  constructor; [apply Qle_refl|done].
Qed.

(** X19. With a color count of at least 1 and at least one vibrant pixel,
    the resolved palette holds [min(colorCount, number of vibrant pixels)]
    colours ranked by vibrancy, and [dominant] is its first and most vibrant
    entry. *)
Theorem extractColors_palette_shape (pixels : list Pixel) (colorCount : Z) :
  1 ≤ colorCount → collect pixels ≠ [] →
  ∃ p, extractColors (Loaded (Some pixels)) colorCount = Resolved p
       ∧ head (palette p) = Some (dominant p)
       ∧ Z.of_nat (length (palette p))
         = Z.min colorCount (Z.of_nat (length (collect pixels)))
       ∧ ranked (palette p)
       ∧ Forall (λ c, (calculateVibrancy c <= calculateVibrancy (dominant p))%Q)
                (palette p).
Proof.
  intros Hk Hne. simpl.
  destruct (collect pixels) as [|c cs] eqn:E; [done|].
  set (colors := c :: cs) in *.
  destruct (kMeansClustering_size colors
              (Z.min colorCount (Z.of_nat (length colors))) 10)
    as (out & Hout & Hlen & _); [done|subst colors; simpl; lia|].
  rewrite Hout.
  destruct (sortByVibrancy_perm_ranked out) as [Hperm Hrank].
  destruct (sortByVibrancy out) as [|first rest] eqn:Es.
  { apply Permutation_nil_l in Hperm. subst out colors. simpl in Hlen. lia. }
  eexists. split; [done|]. cbn [palette dominant]. split; [done|]. split.
  { rewrite Hperm. lia. }
  split; [done|]. by apply ranked_head.
Qed.

(** X20. When the color count is at least the number of vibrant pixels, the
    palette is those pixels' colours themselves, every one of them, in
    ranked order. *)
Theorem extractColors_keeps_few_pixels (pixels : list Pixel) (colorCount : Z) :
  collect pixels ≠ [] →
  Z.of_nat (length (collect pixels)) ≤ colorCount →
  ∃ p, extractColors (Loaded (Some pixels)) colorCount = Resolved p
       ∧ palette p ≡ₚ collect pixels
       ∧ ranked (palette p).
Proof.
  intros Hne Hk. simpl.
  destruct (collect pixels) as [|c cs] eqn:E; [done|].
  unfold kMeansClustering.
  destruct (Z.leb_spec (Z.of_nat (length (c :: cs)))
              (Z.min colorCount (Z.of_nat (length (c :: cs))))) as [_|Hlt]; [|lia].
  destruct (sortByVibrancy_perm_ranked (c :: cs)) as [Hperm Hrank].
  destruct (sortByVibrancy (c :: cs)) as [|first rest] eqn:Es.
  { by apply Permutation_nil_l in Hperm. }
  eexists. split; [done|]. by cbn [palette].
Qed.

End ExtractorMore.

(** An orange pixel next to a grey and a transparent one. *)
Lemma collect_only_vibrant_witness :
  ∃ p, p ∈ [ {| Extractor.pr := 128; Extractor.pg := 128; Extractor.pb := 128;
                Extractor.pa := 255 |};
             {| Extractor.pr := 250; Extractor.pg := 120; Extractor.pb := 10;
                Extractor.pa := 255 |};
             {| Extractor.pr := 250; Extractor.pg := 0; Extractor.pb := 0;
                Extractor.pa := 0 |} ]
       ∧ Theme.rgb 250 120 10 = Palettes.colorOf p
       ∧ 128 ≤ Extractor.pa p
       ∧ 90 < 250 + 120 + 10 < 675
       ∧ Z.max (Z.max 250 120) 10 < 5 * (Z.max (Z.max 250 120) 10 - Z.min (Z.min 250 120) 10)
       ∧ ¬ (250 = 120 ∧ 120 = 10).
Proof.
  apply (collect_only_vibrant _ (Theme.rgb 250 120 10)).
  vm_compute. apply list_elem_of_here.
Defined.

(** A two-pixel greyscale image. *)
Lemma grey_image_falls_back_witness :
  Extractor.extractColors
    (Extractor.Loaded
       (Some [ {| Extractor.pr := 40; Extractor.pg := 40; Extractor.pb := 40;
                  Extractor.pa := 255 |};
               {| Extractor.pr := 200; Extractor.pg := 200; Extractor.pb := 200;
                  Extractor.pa := 255 |} ])) 5
  = Extractor.Resolved Extractor.fallback.
Proof.
  apply grey_image_falls_back. repeat constructor.
Defined.

(** Three reds, a green and a blue clustered into three colours. *)
Lemma kMeansClustering_size_and_range_witness :
  ∃ out,
    Extractor.kMeansClustering
      [ Theme.rgb 255 0 0; Theme.rgb 255 0 0; Theme.rgb 255 0 0;
        Theme.rgb 0 255 0; Theme.rgb 0 0 255 ] 3 10 = Some out
    ∧ Z.of_nat (length out) = Z.min 3 5
    ∧ Forall (Palettes.inRange 0 255) out.
Proof.
  apply (kMeansClustering_size_and_range
           [ Theme.rgb 255 0 0; Theme.rgb 255 0 0; Theme.rgb 255 0 0;
             Theme.rgb 0 255 0; Theme.rgb 0 0 255 ] 3 0 255 10).
  - discriminate.
  - lia.
  - repeat constructor; simpl; lia.
Defined.

(** The orange cover of the examples, color count 5. *)
Lemma extractColors_palette_shape_witness :
  ∃ p, Extractor.extractColors (Runs.orange "cover") 5 = Extractor.Resolved p
       ∧ head (Extractor.palette p) = Some (Extractor.dominant p)
       ∧ Z.of_nat (length (Extractor.palette p)) = Z.min 5 1
       ∧ Palettes.ranked (Extractor.palette p)
       ∧ Forall (λ c, (Extractor.calculateVibrancy c
                       <= Extractor.calculateVibrancy (Extractor.dominant p))%Q)
                (Extractor.palette p).
Proof.
  apply (extractColors_palette_shape
           [ {| Extractor.pr := 250; Extractor.pg := 120; Extractor.pb := 10;
                Extractor.pa := 255 |} ] 5).
  - lia.
  - discriminate.
Defined.

(** Two vibrant pixels and the default color count. *)
Lemma extractColors_keeps_few_pixels_witness :
  ∃ p, Extractor.extractColors
         (Extractor.Loaded
            (Some [ {| Extractor.pr := 250; Extractor.pg := 120; Extractor.pb := 10;
                       Extractor.pa := 255 |};
                    {| Extractor.pr := 20; Extractor.pg := 200; Extractor.pb := 90;
                       Extractor.pa := 200 |} ])) 5 = Extractor.Resolved p
       ∧ Extractor.palette p ≡ₚ [ Theme.rgb 250 120 10; Theme.rgb 20 200 90 ]
       ∧ Palettes.ranked (Extractor.palette p).
Proof.
  apply (extractColors_keeps_few_pixels
           [ {| Extractor.pr := 250; Extractor.pg := 120; Extractor.pb := 10;
                Extractor.pa := 255 |};
             {| Extractor.pr := 20; Extractor.pg := 200; Extractor.pb := 90;
                Extractor.pa := 200 |} ] 5).
  - discriminate.
  - simpl. lia.
Defined.

(** ** Theme engine: genre detection, state, colour sources *)

Section GenreFacts.

Import Theme.
Variable unicodeLowerCase : string → string.

Lemma genreMap_exact : Forall (λ e, genreMapGet e.1 = Some (Named e.2)) GENRE_MAP.
Proof. repeat constructor. Qed.

Lemma genreMap_values : Forall (λ e, is_Some (GENRE_THEMES !! e.2)) GENRE_MAP.
Proof. repeat (constructor; [by eexists|]). constructor. Qed.

Lemma detectLoop_cons (genre : string) (rest : list string) :
  detectLoop unicodeLowerCase (genre :: rest)
  = match genreMapGet (trim (toLowerCase unicodeLowerCase genre)) with
    | Some value => value
    | None =>
      match find (λ e, includes (trim (toLowerCase unicodeLowerCase genre)) e.1
                       || includes e.1 (trim (toLowerCase unicodeLowerCase genre)))
                 GENRE_MAP with
      | Some e => Named e.2
      | None => detectLoop unicodeLowerCase rest
      end
    end.
Proof. reflexivity. Qed.

(** What the loop can answer: ['default'], a value of [GENRE_MAP], or the
    object inherited under the name that one of the tags normalizes to. *)
Lemma detectLoop_cases (genres : list string) :
  detectLoop unicodeLowerCase genres = Named "default"
  ∨ (∃ e, e ∈ GENRE_MAP ∧ detectLoop unicodeLowerCase genres = Named e.2)
  ∨ (∃ genre, genre ∈ genres
       ∧ trim (toLowerCase unicodeLowerCase genre) ∈ inheritedNames
       ∧ detectLoop unicodeLowerCase genres
         = Inherited (trim (toLowerCase unicodeLowerCase genre))).
Proof.
  induction genres as [|genre rest IH]; [by left|]. rewrite detectLoop_cons.
  unfold genreMapGet.
  match goal with |- context [find ?f GENRE_MAP] =>
    destruct (find f GENRE_MAP) as [e|] eqn:Ee end.
  { right. left. exists e. split; [|done].
    apply find_some in Ee as [Hin _]. by apply list_elem_of_In. }
  case_decide as Hinh.
  { right. right. exists genre. split; [apply list_elem_of_here|done]. }
  match goal with |- context [find ?f GENRE_MAP] =>
    destruct (find f GENRE_MAP) as [e|] eqn:Ep end.
  { right. left. exists e. split; [|done].
    apply find_some in Ep as [Hin _]. by apply list_elem_of_In. }
  destruct IH as [IH|[IH|(g & Hg & Hn & IH)]]; [by left|by right; left|].
  right. right. exists g. split; [by apply list_elem_of_further|done].
Qed.

(** X21. For tags none of which normalizes to a property name that
    [GENRE_MAP] inherits from [Object.prototype], [detectGenreTheme] answers
    with the name of a genre that is a key of [GENRE_THEMES], whatever the
    tags are: on the table as declared the lookup that follows finds the
    entry under that very key and never needs its ['default'] fallback. *)
Theorem detectGenreTheme_in_table (tags : list string) :
  Genres.plainTags unicodeLowerCase tags →
  ∃ genre entry,
    detectGenreTheme unicodeLowerCase (Some tags) = Named genre
    ∧ GENRE_THEMES !! genre = Some entry
    ∧ genreEntry GENRE_THEMES (detectGenreTheme unicodeLowerCase (Some tags))
      = Some (genre, entry).
Proof.
  intros Hplain. cbn [detectGenreTheme].
  assert (Hnamed : ∃ genre entry,
            detectLoop unicodeLowerCase tags = Named genre
            ∧ GENRE_THEMES !! genre = Some entry).
  { destruct (detectLoop_cases tags) as [->|[(e & He & ->)|(g & Hg & Hn & _)]].
    - by eexists _, _.
    - pose proof genreMap_values as Hv. rewrite Forall_forall in Hv.
      destruct (Hv e He) as [entry Hentry]. by exists e.2, entry.
    - unfold Genres.plainTags in Hplain. rewrite Forall_forall in Hplain.
      by destruct (Hplain g Hg). }
  destruct Hnamed as (genre & entry & Hd & Hentry).
  exists genre, entry. rewrite Hd. split; [done|]. split; [done|].
  unfold genreEntry. by rewrite Hentry.
Qed.

(** X22. A tag that is a key of [GENRE_MAP] up to letter case and
    surrounding white space is classified as that key's genre, whatever
    tags follow it. *)
Theorem detectGenreTheme_exact_tag (genre key value : string) (rest : list string) :
  (key, value) ∈ GENRE_MAP →
  trim (toLowerCase unicodeLowerCase genre) = key →
  detectGenreTheme unicodeLowerCase (Some (genre :: rest)) = Named value.
Proof.
  intros Hin Hnorm. unfold detectGenreTheme. rewrite detectLoop_cons, Hnorm.
  pose proof genreMap_exact as He. rewrite Forall_forall in He.
  specialize (He _ Hin). simpl in He. by rewrite He.
Qed.

(** X23. A tag of which lower-casing and trimming leave nothing, an empty
    one or one of white space only, is classified as ['trance']: the empty
    string is no key of the map and no inherited name, and every key
    includes it, so the first entry of the map wins the partial match. *)
Theorem detectGenreTheme_blank_tag (genre : string) (rest : list string) :
  trim (toLowerCase unicodeLowerCase genre) = "" →
  detectGenreTheme unicodeLowerCase (Some (genre :: rest)) = Named "trance".
Proof.
  intros Hnorm. unfold detectGenreTheme. by rewrite detectLoop_cons, Hnorm.
Qed.

Lemma declared_not_inherited :
  Forall (λ e : string * string, e.1 ∉ inheritedNames) GENRE_MAP.
Proof.
  repeat (constructor;
          [intros Hc; apply list_elem_of_In in Hc; vm_compute in Hc;
           intuition discriminate|]).
  constructor.
Qed.

(** A tag that normalizes to an inherited name is answered with the
    inherited object, whatever tags follow it. *)
Lemma detectGenreTheme_inherited (genre : string) (rest : list string) :
  trim (toLowerCase unicodeLowerCase genre) ∈ inheritedNames →
  detectGenreTheme unicodeLowerCase (Some (genre :: rest))
  = Inherited (trim (toLowerCase unicodeLowerCase genre)).
Proof.
  intros Hinh. unfold detectGenreTheme. rewrite detectLoop_cons.
  unfold genreMapGet.
  match goal with |- context [find ?f GENRE_MAP] =>
    destruct (find f GENRE_MAP) as [e|] eqn:Ee end.
  - exfalso. apply find_some in Ee as [Hin Heq].
    apply bool_decide_eq_true in Heq.
    pose proof declared_not_inherited as Hd. rewrite Forall_forall in Hd.
    apply list_elem_of_In in Hin. apply (Hd e Hin). by rewrite Heq.
  - by rewrite decide_True.
Qed.

End GenreFacts.

(** White space around a tag goes, whatever its encoding: a tab and a
    no-break space (U+00A0) in front, an ideographic space (U+3000) and a
    byte order mark (U+FEFF) behind. *)
Example trim_unicode_space :
  Theme.trim
    (String "009" (String "194" (String "160"
       ("acid techno" +:+
        String "227" (String "128" (String "128"
          (String "239" (String "187" (String "191" "")))))))))
  = "acid techno".
Proof. reflexivity. Qed.

(** A tag that is one no-break space is blank, on a host whose lower-casing
    leaves white space as it is: the answer is ['trance'], not the genre of
    the tag behind it. *)
Example detectGenreTheme_no_break_space :
  Theme.detectGenreTheme Runs.unmapped
    (Some [String "194" (String "160" ""); "techno"])
  = Theme.Named "trance".
Proof. reflexivity. Qed.

(** The tag ['Constructor '] is answered with the function [Object], for
    which the theme falls back on the ['default'] entry. *)
Example detectGenreTheme_constructor :
  Theme.detectGenreTheme Runs.unmapped (Some ["Constructor "; "techno"])
  = Theme.Inherited "constructor"
  ∧ fst <$> Theme.genreEntry Theme.GENRE_THEMES (Theme.Inherited "constructor")
    = Some "default".
Proof. split; reflexivity. Qed.

(** Two tags no map key matches, and one that a key is part of. *)
Lemma detectGenreTheme_in_table_witness :
  ∃ genre entry,
    Theme.detectGenreTheme Runs.unmapped
      (Some ["ambient drone"; "Liquid Funk"; "UK Jungle"]) = Theme.Named genre
    ∧ Theme.GENRE_THEMES !! genre = Some entry
    ∧ Theme.genreEntry Theme.GENRE_THEMES
        (Theme.detectGenreTheme Runs.unmapped
           (Some ["ambient drone"; "Liquid Funk"; "UK Jungle"]))
      = Some (genre, entry).
Proof.
  apply (detectGenreTheme_in_table Runs.unmapped
           ["ambient drone"; "Liquid Funk"; "UK Jungle"]).
  repeat constructor; intros H; apply list_elem_of_In in H; vm_compute in H;
    intuition discriminate.
Defined.

(** ['  Progressive TRANCE '] against the entry for ['progressive trance']. *)
Lemma detectGenreTheme_exact_tag_witness :
  Theme.detectGenreTheme Runs.unmapped (Some ["  Progressive TRANCE "; "techno"])
  = Theme.Named "trance".
Proof.
  apply (detectGenreTheme_exact_tag Runs.unmapped "  Progressive TRANCE "
           "progressive trance" "trance" ["techno"]).
  - apply list_elem_of_further, list_elem_of_here.
  - reflexivity.
Defined.

(** A tag of a space, a tab and a line feed in front of ['techno']. *)
Lemma detectGenreTheme_blank_tag_witness :
  Theme.detectGenreTheme Runs.unmapped
    (Some [String " " (String "009" (String "010" "")); "techno"])
  = Theme.Named "trance".
Proof.
  apply (detectGenreTheme_blank_tag Runs.unmapped
           (String " " (String "009" (String "010" ""))) ["techno"]).
  reflexivity.
Defined.

Section ThemeMore.

Import Extractor Theme.
Variable unicodeLowerCase : string → string.
Variable loadImage : string → ImageLoad.

Lemma genreEntry_lookup (tbl : gmap string GenreTheme) (genreKey : GenreKey)
    (slot : string) (entry : GenreTheme) :
  genreEntry tbl genreKey = Some (slot, entry) → tbl !! slot = Some entry.
Proof.
  unfold genreEntry. destruct genreKey as [genre|property].
  - destruct (tbl !! genre) as [e|] eqn:E.
    + by intros [= <- <-].
    + destruct (tbl !! "default") as [e|] eqn:Ed; [|done]. by intros [= <- <-].
  - destruct (tbl !! "default") as [e|] eqn:Ed; [|done]. by intros [= <- <-].
Qed.

(** The entry [genreEntry] finds is the one the two lookups select. *)
Lemma genreEntry_selects (tbl : gmap string GenreTheme) (genreKey : GenreKey)
    (slot : string) (entry : GenreTheme) :
  genreEntry tbl genreKey = Some (slot, entry) →
  Genres.selects tbl genreKey slot entry.
Proof.
  unfold genreEntry, Genres.selects. destruct genreKey as [genre|property].
  - destruct (tbl !! genre) as [e|] eqn:E.
    + intros [= <- <-]. by left.
    + destruct (tbl !! "default") as [e|] eqn:Ed; [|done].
      intros [= <- <-]. by right.
  - destruct (tbl !! "default") as [e|] eqn:Ed; [|done]. by intros [= <- <-].
Qed.

(** How a produced theme came about. *)
Lemma generate_resolved_inv (tickTime themeTime : Z) (trackData : option TrackData)
    (w w' : World) (theme : ThemeRecord) :
  generateThemeFromTrack unicodeLowerCase loadImage tickTime themeTime trackData w
    = (w', Resolved (Some theme)) →
  ∃ td tr slot genreTheme,
    trackData = Some td ∧ track td = Some tr
    ∧ genreEntry (table w)
        (detectGenreTheme unicodeLowerCase (Some (default [] (genres td))))
      = Some (slot, genreTheme)
    ∧ (beatBlock tickTime (bpmOf td) (audioFeaturesOf td) (beatEngine (this w))).2
      = Beat.Normal
    ∧ beatEngine (this w')
      = (beatBlock tickTime (bpmOf td) (audioFeaturesOf td) (beatEngine (this w))).1
    ∧ theme
      = buildTheme (this w)
          (detectGenreTheme unicodeLowerCase (Some (default [] (genres td))))
          (overrideBlock (this w) (table w) genreTheme
             (albumArtBlock loadImage tr slot genreTheme (this w)).1).1.2
          (deref
             (overrideBlock (this w) (table w) genreTheme
                (albumArtBlock loadImage tr slot genreTheme (this w)).1).1.2
             (overrideBlock (this w) (table w) genreTheme
                (albumArtBlock loadImage tr slot genreTheme (this w)).1).2)
          (bpmOf td) (audioFeaturesOf td) themeTime.
Proof.
  unfold generateThemeFromTrack.
  destruct trackData as [td|]; [|done].
  destruct (track td) as [tr|] eqn:Htrack; [|done].
  destruct (genreEntry (table w) _) as [[slot genreTheme]|] eqn:Hentry; [|done].
  cbv zeta.
  destruct (beatBlock tickTime (bpmOf td) (audioFeaturesOf td) (beatEngine (this w))).2
    eqn:Hbeat; [|done].
  intros [= <- <-]. by exists td, tr, slot, genreTheme.
Qed.

(** X24. [currentTheme] is replaced only by a theme that is returned: after
    a call that resolves with a theme it holds that very theme, and after a
    call that returns [null] or is rejected it holds what it held before. *)
Theorem currentTheme_tracks_result (tickTime themeTime : Z)
    (trackData : option TrackData) (w : World) :
  let result :=
    generateThemeFromTrack unicodeLowerCase loadImage tickTime themeTime trackData w in
  match result.2 with
  | Resolved (Some theme) => currentTheme (this result.1) = Some theme
  | Resolved None | Rejected => currentTheme (this result.1) = currentTheme (this w)
  end.
Proof.
  unfold generateThemeFromTrack.
  destruct trackData as [td|]; [|done]. destruct (track td); [|done].
  destruct (genreEntry _ _) as [[slot genreTheme]|]; [|done]. cbv zeta.
  by destruct (beatBlock _ _ _ _).2.
Qed.

(** X25. The only thing [generateThemeFromTrack] ever writes to the genre
    table is the primary colour of one entry, the entry of the genre
    detected for the track (that of ['default'] where the table has none
    under the genre), and only the active override colour.  A call leaves
    the table as it was, or it leaves the table with that one entry
    replaced by itself under the new primary: every other entry, and the
    name, effects, secondary and accent of that entry, stay as they were,
    and no entry appears or disappears. *)
Theorem table_written_only_at_primary (tickTime themeTime : Z)
    (trackData : option TrackData) (w : World) :
  let after :=
    table (generateThemeFromTrack unicodeLowerCase loadImage tickTime themeTime
             trackData w).1 in
  after = table w
  ∨ ∃ td slot entry value,
      trackData = Some td
      ∧ Genres.selects (table w)
          (detectGenreTheme unicodeLowerCase (Some (default [] (genres td))))
          slot entry
      ∧ activeOverride (this w) = Some value
      ∧ after
        = <[ slot := {| name := name entry;
                        baseColors := {| primary := value;
                                         secondary := secondary (baseColors entry);
                                         accent := accent (baseColors entry) |};
                        effects := effects entry |} ]> (table w)
      ∧ (∀ key, key ≠ slot → after !! key = table w !! key)
      ∧ dom after = dom (table w).
Proof.
  unfold generateThemeFromTrack.
  destruct trackData as [td|]; [|by left]. destruct (track td) as [tr|]; [|by left].
  destruct (genreEntry _ _) as [[slot genreTheme]|] eqn:Hentry; [|by left].
  pose proof (genreEntry_selects _ _ _ _ Hentry) as Hsel.
  apply genreEntry_lookup in Hentry. cbv zeta.
  assert (Hgoal :
    (overrideBlock (this w) (table w) genreTheme
       (albumArtBlock loadImage tr slot genreTheme (this w)).1).1.1 = table w
    ∨ ∃ value,
        activeOverride (this w) = Some value
        ∧ (overrideBlock (this w) (table w) genreTheme
             (albumArtBlock loadImage tr slot genreTheme (this w)).1).1.1
          = <[ slot := {| name := name genreTheme;
                          baseColors :=
                            {| primary := value;
                               secondary := secondary (baseColors genreTheme);
                               accent := accent (baseColors genreTheme) |};
                          effects := effects genreTheme |} ]> (table w)).
  { unfold overrideBlock. destruct (activeOverride (this w)) as [value|]; [|by left].
    destruct (albumArtBlock loadImage tr slot genreTheme (this w)).1 as [k|c] eqn:Eref;
      [|by left].
    assert (k = slot) as ->.
    { unfold albumArtBlock in Eref. destruct (truthyUrl _); [|by injection Eref].
      destruct (extractColors _ _); [done|by injection Eref]. }
    right. by exists value. }
  destruct (beatBlock _ _ _ _).2; cbn [fst table];
    (destruct Hgoal as [->|(value & Hval & ->)]; [by left|];
     right; exists td, slot, genreTheme, value;
     split; [done|]; split; [done|]; split; [done|]; split; [done|]; split;
     [intros key Hne; by rewrite lookup_insert_ne
     |apply dom_insert_lookup_L; by eexists]).
Qed.

(** X26. The tempo of a produced theme and the tempo of the beat engine agree
    for a BPM in (0, 300].  Above 300 the theme keeps the BPM it was given
    while the beat engine runs at 120; for a negative BPM the beat engine is
    not touched at all. *)
Theorem theme_and_beat_tempo (tickTime themeTime : Z) (trackData : option TrackData)
    (w w' : World) (theme : ThemeRecord) :
  generateThemeFromTrack unicodeLowerCase loadImage tickTime themeTime trackData w
    = (w', Resolved (Some theme)) →
  ((0 < t_bpm theme)%Q → (t_bpm theme <= 300)%Q →
     Beat.bpm (Beat.engine (beatEngine (this w')))
     = Beat.Number (Beat.Finite (t_bpm theme)))
  ∧ ((300 < t_bpm theme)%Q →
     Beat.bpm (Beat.engine (beatEngine (this w')))
     = Beat.Number (Beat.Finite 120))
  ∧ ((t_bpm theme <= 0)%Q → beatEngine (this w') = beatEngine (this w)).
Proof.
  intros Hrun.
  apply generate_resolved_inv in Hrun
    as (td & tr & slot & genreTheme & -> & _ & _ & _ & -> & ->).
  cbn [buildTheme t_bpm]. unfold beatBlock.
  assert (Hnz : Qeq_bool (bpmOf td) 0 = false).
  { unfold bpmOf, orDefault. destruct (features td ≫= f_bpm) as [q|]; [|done].
    by destruct (Qeq_bool q 0) eqn:E. }
  rewrite Hnz. cbn [negb andb]. split; [|split].
  - intros Hpos Hle.
    destruct (Qle_bool (bpmOf td) 0) eqn:E.
    { apply Qle_bool_iff in E. exfalso. by apply (Qlt_not_le _ _ Hpos). }
    cbn [negb].
    destruct (setBPM_stores tickTime (Beat.Number (Beat.Finite (bpmOf td)))
                (audioFeaturesOf td) (beatEngine (this w))) as [-> _].
    by destruct (validated_keeps (bpmOf td) Hpos Hle) as [-> _].
  - intros Hbig.
    destruct (Qle_bool (bpmOf td) 0) eqn:E.
    { apply Qle_bool_iff in E. exfalso. apply (Qlt_not_le _ _ Hbig).
      apply Qle_trans with 0%Q; [done|discriminate]. }
    cbn [negb].
    destruct (setBPM_stores tickTime (Beat.Number (Beat.Finite (bpmOf td)))
                (audioFeaturesOf td) (beatEngine (this w))) as [-> _].
    apply validated_outOfRange. simpl. auto.
  - intros Hneg. apply Qle_bool_iff in Hneg. by rewrite Hneg.
Qed.

(** X27. A theme engine whose beat engine has no event bus produces no theme
    for any track with a positive BPM, the default 120 included: the call
    is rejected and [currentTheme] stays what it was. *)
Theorem no_theme_without_bus (tickTime themeTime : Z) (td : TrackData) (tr : Track)
    (w : World) :
  Beat.eventBus (Beat.engine (beatEngine (this w))) = false →
  track td = Some tr →
  (0 < bpmOf td)%Q →
  is_Some (table w !! "default") →
  let result :=
    generateThemeFromTrack unicodeLowerCase loadImage tickTime themeTime (Some td) w in
  result.2 = Rejected ∧ currentTheme (this result.1) = currentTheme (this w).
Proof.
  intros Hbus Htrack Hpos [dflt Hd] result. subst result.
  unfold generateThemeFromTrack. rewrite Htrack.
  assert (Hentry : ∃ slot genreTheme,
            genreEntry (table w)
              (detectGenreTheme unicodeLowerCase (Some (default [] (genres td))))
            = Some (slot, genreTheme)).
  { unfold genreEntry. destruct (detectGenreTheme _ _) as [genre|property].
    - destruct (table w !! genre); [eauto|]. rewrite Hd. eauto.
    - rewrite Hd. eauto. }
  destruct Hentry as (slot & genreTheme & ->). cbv zeta.
  assert (Hthrown : (beatBlock tickTime (bpmOf td) (audioFeaturesOf td)
                       (beatEngine (this w))).2 = Beat.Thrown).
  { unfold beatBlock.
    destruct (Qeq_bool (bpmOf td) 0) eqn:E0.
    { apply Qeq_bool_iff in E0. rewrite E0 in Hpos. by apply Qlt_irrefl in Hpos. }
    destruct (Qle_bool (bpmOf td) 0) eqn:E.
    { apply Qle_bool_iff in E. exfalso. by apply (Qlt_not_le _ _ Hpos). }
    cbn [negb andb]. by destruct (setBPM_without_bus tickTime
      (Beat.Number (Beat.Finite (bpmOf td))) (audioFeaturesOf td)
      (beatEngine (this w)) Hbus). }
  by rewrite Hthrown.
Qed.

(** X28. When the album art fails to load, the extractor's fallback palette
    is taken as the extracted one: with no override active the theme's
    primary and secondary are the fallback purple and pink whatever the
    genre, and only the accent is that of a table entry. *)
Theorem load_failure_gives_fallback_colours (tickTime themeTime : Z)
    (td : TrackData) (tr : Track) (url : string) (w w' : World) (theme : ThemeRecord) :
  track td = Some tr →
  truthyUrl (albumArt tr) = Some url →
  loadImage url = LoadError →
  activeOverride (this w) = None →
  generateThemeFromTrack unicodeLowerCase loadImage tickTime themeTime (Some td) w
    = (w', Resolved (Some theme)) →
  c_primary (t_colors theme) = "rgb(139, 92, 246)"
  ∧ c_secondary (t_colors theme) = "rgb(236, 72, 153)"
  ∧ ∃ slot entry,
      table w !! slot = Some entry
      ∧ c_accent (t_colors theme) = rgbToString (accent (baseColors entry)).
Proof.
  intros Htrack Hurl Hload Hnone Hrun.
  apply generate_resolved_inv in Hrun
    as (td' & tr' & slot & genreTheme & [= <-] & Htr & Hentry & _ & _ & ->).
  rewrite Htrack in Htr. injection Htr as <-.
  unfold overrideBlock. rewrite Hnone. cbn [fst snd].
  unfold albumArtBlock. rewrite Hurl, Hload. cbn.
  split; [done|]. split; [done|]. exists slot, genreTheme.
  split; [by eapply genreEntry_lookup|done].
Qed.

(** X29. Without album art, and when the extraction is rejected, the theme
    takes all three colours and its name from the table entry of the genre
    detected for the track, as that entry stands: the entry under the name
    [detectGenreTheme] answers, and the ['default'] entry only where the
    table has none under that name (no override being active). *)
Theorem genre_palette_without_extraction (tickTime themeTime : Z)
    (td : TrackData) (tr : Track) (w w' : World) (theme : ThemeRecord) :
  track td = Some tr →
  (truthyUrl (albumArt tr) = None
   ∨ ∃ url, truthyUrl (albumArt tr) = Some url
            ∧ extractColors (loadImage url) 5 = Rejected) →
  activeOverride (this w) = None →
  generateThemeFromTrack unicodeLowerCase loadImage tickTime themeTime (Some td) w
    = (w', Resolved (Some theme)) →
  t_genre theme = detectGenreTheme unicodeLowerCase (Some (default [] (genres td)))
  ∧ ∃ slot entry,
      Genres.selects (table w) (t_genre theme) slot entry
      ∧ c_primary (t_colors theme) = rgbToString (primary (baseColors entry))
      ∧ c_secondary (t_colors theme) = rgbToString (secondary (baseColors entry))
      ∧ c_accent (t_colors theme) = rgbToString (accent (baseColors entry))
      ∧ t_genreName theme = name entry.
Proof.
  intros Htrack Hart Hnone Hrun.
  apply generate_resolved_inv in Hrun
    as (td' & tr' & slot & genreTheme & [= <-] & Htr & Hentry & _ & _ & ->).
  rewrite Htrack in Htr. injection Htr as <-.
  split; [done|]. exists slot, genreTheme.
  split; [by apply genreEntry_selects|].
  unfold overrideBlock. rewrite Hnone. cbn [fst snd].
  unfold albumArtBlock.
  destruct Hart as [->|(url & -> & ->)]; by cbn.
Qed.

End ThemeMore.

(** A track at 400 BPM: the theme says 400, the beat engine runs at 120. *)
Lemma theme_and_beat_tempo_witness :
  ∃ w' theme,
    Theme.generateThemeFromTrack Runs.unmapped Runs.offline 1 2 (Some MoreRuns.frantic)
      (Theme.new true)
      = (w', Extractor.Resolved (Some theme))
    ∧ Theme.t_bpm theme = 400%Q
    ∧ Beat.bpm (Beat.engine (Theme.beatEngine (Theme.this w')))
      = Beat.Number (Beat.Finite 120).
Proof.
  eexists _, _. split; [vm_compute; reflexivity|]. split; [reflexivity|].
  refine (proj1 (proj2 (theme_and_beat_tempo Runs.unmapped Runs.offline 1 2
                          (Some MoreRuns.frantic)
                          (Theme.new true) _ _ _)) _).
  - vm_compute. reflexivity.
  - reflexivity.
Defined.

(** An engine built without a bus, and a track without audio features. *)
Lemma no_theme_without_bus_witness :
  let result := Theme.generateThemeFromTrack Runs.unmapped Runs.offline 1 2
                  (Some Runs.plain)
                  (Theme.new false) in
  result.2 = Extractor.Rejected
  ∧ Theme.currentTheme (Theme.this result.1)
    = Theme.currentTheme (Theme.this (Theme.new false)).
Proof.
  apply (no_theme_without_bus Runs.unmapped Runs.offline 1 2 Runs.plain
           {| Theme.albumArt := None |}
           (Theme.new false)).
  - reflexivity.
  - reflexivity.
  - reflexivity.
  - by eexists.
Defined.

(** A hardcore track whose cover does not load: purple and pink, not red. *)
Lemma load_failure_gives_fallback_colours_witness :
  ∃ theme,
    (Theme.generateThemeFromTrack Runs.unmapped Runs.offline 1 2
       (Some MoreRuns.hardcoreWithArt)
       (Theme.new true)).2 = Extractor.Resolved (Some theme)
    ∧ Theme.t_genre theme = Theme.Named "hardcore"
    ∧ Theme.c_primary (Theme.t_colors theme) = "rgb(139, 92, 246)"
    ∧ Theme.c_secondary (Theme.t_colors theme) = "rgb(236, 72, 153)".
Proof.
  eexists. split; [vm_compute; reflexivity|]. split; [reflexivity|].
  match goal with |- Theme.c_primary (Theme.t_colors ?t) = _ ∧ _ =>
    destruct (load_failure_gives_fallback_colours Runs.unmapped Runs.offline 1 2
                MoreRuns.hardcoreWithArt
                {| Theme.albumArt := Some "https://i.scdn.co/image/ab67" |}
                "https://i.scdn.co/image/ab67" (Theme.new true)
                (Theme.generateThemeFromTrack Runs.unmapped Runs.offline 1 2
                   (Some MoreRuns.hardcoreWithArt) (Theme.new true)).1
                t eq_refl eq_refl eq_refl eq_refl) as (Hp & Hs & _)
  end.
  { vm_compute. reflexivity. }
  by split.
Defined.

(** A techno track without album art on a fresh engine: the techno
    palette, not the default one. *)
Lemma genre_palette_without_extraction_witness :
  ∃ theme,
    (Theme.generateThemeFromTrack Runs.unmapped Runs.offline 1 2
       (Some MoreRuns.detroit) (Theme.new true)).2
      = Extractor.Resolved (Some theme)
    ∧ Theme.t_genre theme = Theme.Named "techno"
    ∧ Theme.c_primary (Theme.t_colors theme) = "rgb(59, 130, 246)"
    ∧ Theme.c_secondary (Theme.t_colors theme) = "rgb(139, 92, 246)"
    ∧ Theme.c_accent (Theme.t_colors theme) = "rgb(236, 72, 153)"
    ∧ Theme.t_genreName theme = "Techno Minimal".
Proof.
  eexists. split; [vm_compute; reflexivity|].
  match goal with |- Theme.t_genre ?t = _ ∧ _ =>
    destruct (genre_palette_without_extraction Runs.unmapped Runs.offline 1 2
                MoreRuns.detroit {| Theme.albumArt := None |} (Theme.new true)
                (Theme.generateThemeFromTrack Runs.unmapped Runs.offline 1 2
                   (Some MoreRuns.detroit) (Theme.new true)).1
                t eq_refl (or_introl eq_refl) eq_refl)
      as (Hgenre & slot & entry & Hsel & Hp & Hs & Ha & Hn)
  end.
  { vm_compute. reflexivity. }
  split; [exact Hgenre|].
  rewrite Hp, Hs, Ha, Hn.
  destruct Hsel as [[_ Hentry]|[_ [Hnone _]]]; [|discriminate Hnone].
  injection Hentry as <-. repeat split.
Defined.

(** ** Home Assistant service: reconnection *)

Section HomeAssistantFacts.

Import HomeAssistant.
Implicit Types (svc : Service).

Lemma onclose_fields svc :
  maxReconnectAttempts (onclose svc).1 = maxReconnectAttempts svc
  ∧ reconnectDelay (onclose svc).1 = reconnectDelay svc
  ∧ maxReconnectDelay (onclose svc).1 = maxReconnectDelay svc
  ∧ reconnectAttempts (onclose svc).1
    = (if maxReconnectAttempts svc <=? reconnectAttempts svc
       then reconnectAttempts svc else reconnectAttempts svc + 1).
Proof.
  unfold onclose, handleReconnect.
  cbn [maxReconnectAttempts reconnectAttempts reconnectDelay maxReconnectDelay].
  by destruct (_ <=? _).
Qed.

Lemma closes_attempts (n : nat) svc :
  reconnectAttempts svc = 0 → 0 ≤ maxReconnectAttempts svc →
  reconnectAttempts (closes n svc) = Z.min (Z.of_nat n) (maxReconnectAttempts svc)
  ∧ maxReconnectAttempts (closes n svc) = maxReconnectAttempts svc
  ∧ reconnectDelay (closes n svc) = reconnectDelay svc
  ∧ maxReconnectDelay (closes n svc) = maxReconnectDelay svc.
Proof.
  intros H0 Hmax. unfold closes.
  induction n as [|n (IHa & IHm & IHd & IHx)]; [simpl; rewrite H0; repeat split; lia|].
  replace (Nat.iter (S n) (λ s, (onclose s).1) svc)
    with ((onclose (Nat.iter n (λ s, (onclose s).1) svc)).1) by reflexivity.
  destruct (onclose_fields (Nat.iter n (λ s, (onclose s).1) svc)) as (-> & -> & -> & ->).
  rewrite IHa, IHm, IHd, IHx. repeat split; try done.
  destruct (Z.leb_spec (maxReconnectAttempts svc)
              (Z.min (Z.of_nat n) (maxReconnectAttempts svc))); lia.
Qed.

(** X30. Reconnection backs off and gives up: after [n] closes in a row on a
    fresh service the next close schedules a reconnection after
    [min(1000 * 2^n, 30000)] ms while [n < 10], and schedules none from the
    tenth on; only an [auth_ok] resets the count. *)
Theorem reconnect_backoff (n : nat) :
  (onclose (closes n new)).2
    = (if Z.of_nat n <? 10 then Some (Z.min (1000 * 2 ^ Z.of_nat n) 30000) else None)
  ∧ (handleReconnect (authOk (closes n new))).2 = Some 1000.
Proof.
  destruct (closes_attempts n new eq_refl) as (Ha & Hm & Hd & Hx); [done|].
  split.
  2:{ unfold handleReconnect, authOk.
      cbn [maxReconnectAttempts reconnectAttempts reconnectDelay maxReconnectDelay].
      by rewrite Hm, Hx. }
  unfold onclose, handleReconnect.
  cbn [maxReconnectAttempts reconnectAttempts reconnectDelay maxReconnectDelay].
  rewrite Ha, Hm, Hd, Hx. cbn [new maxReconnectAttempts reconnectDelay maxReconnectDelay].
  destruct (Z.ltb_spec (Z.of_nat n) 10) as [Hlt|Hge].
  - rewrite Z.min_l by lia. destruct (Z.leb_spec 10 (Z.of_nat n)); [lia|].
    cbn [snd]. by replace (Z.of_nat n + 1 - 1) with (Z.of_nat n) by lia.
  - rewrite Z.min_r by lia. by destruct (Z.leb_spec 10 10); [|lia].
Qed.

End HomeAssistantFacts.
